(** * PhiloGL [program.js]: uniform setters and shader-source inclusion

    A shallow embedding of [getUniformSetter], the [Program] constructor,
    [setUniform]/[setUniforms] and [recursiveLoad], together with the
    properties that the specification states about them.

    JavaScript numbers are IEEE binary64 values: they are Rocq's primitive
    floats.  Typed arrays live in a heap of objects addressed by index, so
    that a buffer captured by a closure keeps its identity across calls.
    Exceptions are an explicit completion type. *)

From Stdlib Require Import ZArith Lia Ascii String DecimalString.
From Stdlib Require Uint63.
From Stdlib Require Import PrimFloat SpecFloat FloatOps.
From stdpp Require Import base option list strings gmap.

Local Open Scope Z_scope.

(** ** Exceptions *)

Inductive JSError : Type :=
| Error (message : string)   (* [throw new Error(message)] *)
| TypeError                  (* calling or reading a member of [undefined] *)
| RangeError                 (* typed-array length or offset out of bounds *)
| ReferenceError.            (* an identifier that is bound nowhere *)

Inductive Completion (A : Type) : Type :=
| Normal (a : A)
| Throw (e : JSError).
Arguments Normal {A} a.
Arguments Throw {A} e.

(** ** Numbers and typed-array element conversions (ECMAScript) *)

Inductive IntegerOrInfinity : Type :=
| Finite (z : Z)
| PlusInfinity
| MinusInfinity.

(** ECMAScript [ToIntegerOrInfinity]: NaN and zeros give 0, other finite
    numbers are truncated towards zero. *)
Definition ToIntegerOrInfinity (x : float) : IntegerOrInfinity :=
  match Prim2SF x with
  | S754_nan => Finite 0
  | S754_zero _ => Finite 0
  | S754_infinity false => PlusInfinity
  | S754_infinity true => MinusInfinity
  | S754_finite s m e =>
      Finite (cond_Zopp s (if 0 <=? e then Z.pos m * 2 ^ e
                           else Z.pos m / 2 ^ (- e)))
  end.

(** ECMAScript [ToUint16], the conversion a [Uint16Array] applies to every
    element stored in it. *)
Definition ToUint16 (x : float) : Z :=
  match ToIntegerOrInfinity x with
  | Finite z => z mod 65536
  | _ => 0
  end.

(** [Math.fround]: rounding to binary32, the conversion a [Float32Array]
    applies to every element stored in it. *)
Definition fround (x : float) : float :=
  match Prim2SF x with
  | S754_finite s m e =>
      SF2Prim (binary_normalize 24 128 (cond_Zopp s (Z.pos m)) e s)
  | _ => x
  end.

(** An element of a plain array handed to a setter. *)
Inductive Prim : Type :=
| PNum (x : float)
| PBool (b : bool).

Definition ToNumber (p : Prim) : float :=
  match p with
  | PNum x => x
  | PBool true => 1%float
  | PBool false => 0%float
  end.

(** ** Typed arrays and the heap *)

Inductive ArrayType : Type := Float32Array | Uint16Array.

Inductive TypedArray : Type :=
| F32 (data : list float)
| U16 (data : list Z).

Definition ta_length (t : TypedArray) : nat :=
  match t with
  | F32 d => length d
  | U16 d => length d
  end.

Definition ta_type (t : TypedArray) : ArrayType :=
  match t with
  | F32 _ => Float32Array
  | U16 _ => Uint16Array
  end.

(** [new T(n)]: [n] zero elements. *)
Definition ta_zeros (T : ArrayType) (n : nat) : TypedArray :=
  match T with
  | Float32Array => F32 (replicate n 0%float)
  | Uint16Array => U16 (replicate n 0)
  end.

(** [new T(arrayLike)]: every element converted to the element type. *)
Definition ta_of_numbers (T : ArrayType) (xs : list float) : TypedArray :=
  match T with
  | Float32Array => F32 (fround <$> xs)
  | Uint16Array => U16 (ToUint16 <$> xs)
  end.

(** [target.set(source)] for an array-like [source] at offset 0: a source
    longer than the target is a [RangeError]; otherwise the first
    [length source] slots are overwritten and the rest keep their value. *)
Definition ta_set (target : TypedArray) (xs : list float)
  : Completion TypedArray :=
  if (ta_length target <? length xs)%nat then Throw RangeError
  else match target with
       | F32 d => Normal (F32 ((fround <$> xs) ++ drop (length xs) d))
       | U16 d => Normal (U16 ((ToUint16 <$> xs) ++ drop (length xs) d))
       end.

(** ** Values handed to setters

    A setter receives a primitive or an array-like object.  The math types
    of the library ([Vec3], [Mat4], ...) are array-likes that also expose
    [toFloat32Array()]; [conv = Some r] says that the method exists and
    returns a [Float32Array] holding [r]. *)
Inductive Value : Type :=
| VNum (x : float)
| VBool (b : bool)
| VArray (elems : list Prim) (conv : option (list float)).

(** ** The driver *)

Definition Handle := positive.
Definition Location := option Z.

Record ActiveInfo : Type := {
  info_name : string;
  info_type : Z;
  info_size : Z
}.

Inductive ShaderType : Type := VERTEX_SHADER | FRAGMENT_SHADER.

(** [gl_createShader] and [gl_createProgram] are [None] when the driver
    returns [null]. [gl_linkStatus] is the link status of the program object
    built from the two sources. [gl_nullProgram] is what the driver makes of
    [attachShader], [linkProgram] and [getProgramParameter] on [null]: it
    throws, or it answers with a link status. *)
Record GL : Type := {
  gl_createShader : ShaderType -> option Handle;
  gl_compileStatus : ShaderType -> string -> bool;
  gl_getShaderInfoLog : ShaderType -> string -> string;
  gl_createProgram : option Handle;
  gl_nullProgram : Completion bool;
  gl_linkStatus : string -> string -> bool;
  gl_getProgramInfoLog : string -> string -> string;
  gl_getActiveAttribs : list ActiveInfo;
  gl_getAttribLocation : string -> Z;
  gl_getActiveUniforms : list ActiveInfo;
  gl_getUniformLocation : string -> Location;
  gl_getExtension : string -> bool
}.

(** The WebGL type tags of [getActiveUniform]. *)
Definition FLOAT : Z := 0x1406.
Definition INT : Z := 0x1404.
Definition FLOAT_VEC2 : Z := 0x8B50.
Definition FLOAT_VEC3 : Z := 0x8B51.
Definition FLOAT_VEC4 : Z := 0x8B52.
Definition INT_VEC2 : Z := 0x8B53.
Definition INT_VEC3 : Z := 0x8B54.
Definition INT_VEC4 : Z := 0x8B55.
Definition BOOL : Z := 0x8B56.
Definition BOOL_VEC2 : Z := 0x8B57.
Definition BOOL_VEC3 : Z := 0x8B58.
Definition BOOL_VEC4 : Z := 0x8B59.
Definition FLOAT_MAT2 : Z := 0x8B5A.
Definition FLOAT_MAT3 : Z := 0x8B5B.
Definition FLOAT_MAT4 : Z := 0x8B5C.
Definition SAMPLER_2D : Z := 0x8B5E.
Definition SAMPLER_CUBE : Z := 0x8B60.

(** The upload entry points of the driver that [getUniformSetter] selects. *)
Inductive GLFunction : Type :=
| uniform1f | uniform1i | uniform1fv | uniform1iv
| uniform2fv | uniform3fv | uniform4fv
| uniform2iv | uniform3iv | uniform4iv
| uniformMatrix2fv | uniformMatrix3fv | uniformMatrix4fv.

(** An argument of an upload call after the location. A typed array of the
    heap is passed by reference; [contents] is what the driver reads from
    it during the call. *)
Inductive DriverArg : Type :=
| AValue (v : Value)
| AUndefined
| ATyped (address : nat) (contents : TypedArray)
| AFloat32 (data : list float).

Record DriverCall : Type := {
  call_fn : GLFunction;
  call_loc : Location;
  call_args : list DriverArg
}.

(** ** The state of a run and its monad *)

Record World : Type := {
  heap : list TypedArray;
  calls : list DriverCall
}.

Definition JS (A : Type) : Type := World -> Completion A * World.

#[global] Instance JS_ret : MRet JS := fun A a w => (Normal a, w).
#[global] Instance JS_bind : MBind JS := fun A B k m w =>
  match m w with
  | (Normal a, w') => k a w'
  | (Throw e, w') => (Throw e, w')
  end.

Definition throw {A : Type} (e : JSError) : JS A := fun w => (Throw e, w).

Definition alloc (t : TypedArray) : JS nat := fun w =>
  (Normal (length (heap w)), {| heap := heap w ++ [t]; calls := calls w |}).

Definition emit (c : DriverCall) : JS unit := fun w =>
  (Normal tt, {| heap := heap w; calls := calls w ++ [c] |}).

(** Reading a captured typed array; an address always comes from [alloc],
    so the second case is never taken. *)
Definition load (address : nat) : JS TypedArray := fun w =>
  match heap w !! address with
  | Some t => (Normal t, w)
  | None => (Throw ReferenceError, w)
  end.

Definition store (address : nat) (t : TypedArray) : JS unit := fun w =>
  (Normal tt, {| heap := <[address := t]> (heap w); calls := calls w |}).

Definition lift {A : Type} (c : Completion A) : JS A := fun w => (c, w).

(** ** [getUniformSetter] *)

(** What the variable [typedArray] of [getUniformSetter] can hold besides
    [undefined]: one of the two constructors, or an instance created with
    [new]. *)
Inductive TypedArrayRef : Type :=
| TACtor (T : ArrayType)
| TAInst (address : nat).

(** The four closures that [getUniformSetter] returns, with the variables
    they capture. *)
Inductive Setter : Type :=
| ArraySetter (glFunction : GLFunction) (loc : Location)
              (typedArray : TypedArrayRef)
| MatrixSetter (glFunction : GLFunction) (loc : Location)
| VectorSetter (glFunction : GLFunction) (loc : Location)
               (typedArray : TypedArrayRef)
| PrimitiveSetter (glFunction : GLFunction) (loc : Location).

(** The mutable locals of [getUniformSetter]. *)
Record Locals : Type := {
  matrix : bool;
  vector : bool;
  glFunction : option GLFunction;
  typedArray : option TypedArrayRef
}.

Definition initialLocals : Locals :=
  {| matrix := false; vector := true;
     glFunction := None; typedArray := None |}.

(** The first [switch], entered when [info.size > 1 && isArray]. *)
Definition arraySwitch (type : Z) (l : Locals) : JS Locals :=
  if type =? FLOAT then
    mret {| matrix := matrix l; vector := false;
            glFunction := Some uniform1fv;
            typedArray := Some (TACtor Float32Array) |}
  else if (type =? INT) || (type =? BOOL)
          || (type =? SAMPLER_2D) || (type =? SAMPLER_CUBE) then
    mret {| matrix := matrix l; vector := false;
            glFunction := Some uniform1iv;
            typedArray := Some (TACtor Uint16Array) |}
  else throw (Error "Uniform: Unknown GLSL type").

(** [isArray ? T : new T(n)] *)
Definition ctorOrInstance (isArray : bool) (T : ArrayType) (n : nat)
  : JS TypedArrayRef :=
  if isArray then mret (TACtor T)
  else a ← alloc (ta_zeros T n); mret (TAInst a).

Definition setFunction (f : GLFunction) (l : Locals) : Locals :=
  {| matrix := matrix l; vector := vector l;
     glFunction := Some f; typedArray := typedArray l |}.

Definition setVector (f : GLFunction) (t : TypedArrayRef) (l : Locals)
  : Locals :=
  {| matrix := matrix l; vector := vector l;
     glFunction := Some f; typedArray := Some t |}.

Definition setMatrix (f : GLFunction) (l : Locals) : Locals :=
  {| matrix := true; vector := vector l;
     glFunction := Some f; typedArray := typedArray l |}.

(** The second [switch], entered when [vector] is still true. *)
Definition vectorSwitch (type : Z) (isArray : bool) (l : Locals)
  : JS Locals :=
  if type =? FLOAT then mret (setFunction uniform1f l)
  else if type =? FLOAT_VEC2 then
    t ← ctorOrInstance isArray Float32Array 2; mret (setVector uniform2fv t l)
  else if type =? FLOAT_VEC3 then
    t ← ctorOrInstance isArray Float32Array 3; mret (setVector uniform3fv t l)
  else if type =? FLOAT_VEC4 then
    t ← ctorOrInstance isArray Float32Array 4; mret (setVector uniform4fv t l)
  else if (type =? INT) || (type =? BOOL)
          || (type =? SAMPLER_2D) || (type =? SAMPLER_CUBE) then
    mret (setFunction uniform1i l)
  else if (type =? INT_VEC2) || (type =? BOOL_VEC2) then
    t ← ctorOrInstance isArray Uint16Array 2; mret (setVector uniform2iv t l)
  else if (type =? INT_VEC3) || (type =? BOOL_VEC3) then
    t ← ctorOrInstance isArray Uint16Array 3; mret (setVector uniform3iv t l)
  else if (type =? INT_VEC4) || (type =? BOOL_VEC4) then
    t ← ctorOrInstance isArray Uint16Array 4; mret (setVector uniform4iv t l)
  else if type =? FLOAT_MAT2 then mret (setMatrix uniformMatrix2fv l)
  else if type =? FLOAT_MAT3 then mret (setMatrix uniformMatrix3fv l)
  else if type =? FLOAT_MAT4 then mret (setMatrix uniformMatrix4fv l)
  else mret l.

(** The tail of [getUniformSetter]: [glFunction.bind(gl)] throws a
    [TypeError] when [glFunction] is still [undefined]; then the closure is
    chosen. *)
Definition chooseSetter (loc : Location) (isArray : bool) (l : Locals)
  : JS Setter :=
  match glFunction l with
  | None => throw TypeError
  | Some f =>
      match isArray, typedArray l with
      | true, Some t => mret (ArraySetter f loc t)
      | _, _ =>
          if matrix l then mret (MatrixSetter f loc)
          else match typedArray l with
               | Some t => mret (VectorSetter f loc t)
               | None => mret (PrimitiveSetter f loc)
               end
      end
  end.

Definition getUniformSetter (gl : GL) (glProgram : Handle)
  (info : ActiveInfo) (isArray : bool) : JS Setter :=
  let name := info_name info in
  let type := info_type info in
  let loc := gl_getUniformLocation gl name in
  l1 ← (if (1 <? info_size info) && isArray
        then arraySwitch type initialLocals
        else mret initialLocals);
  l2 ← (if vector l1 then vectorSwitch type isArray l1 else mret l1);
  chooseSetter loc isArray l2.

(** ** Calling a setter *)

(** ECMAScript [ToIndex] of the argument of [new T(length)]. *)
Definition ToIndex (x : float) : Completion nat :=
  match ToIntegerOrInfinity x with
  | Finite n =>
      if (n <? 0) || (2 ^ 53 - 1 <? n) then Throw RangeError
      else Normal (Z.to_nat n)
  | _ => Throw RangeError
  end.

(** [new typedArray(val)] *)
Definition construct (typedArray : TypedArrayRef) (val : Value)
  : JS (nat * TypedArray) :=
  match typedArray with
  | TAInst _ => throw TypeError
  | TACtor T =>
      t ← match val with
          | VArray elems _ => mret (ta_of_numbers T (ToNumber <$> elems))
          | VNum x => n ← lift (ToIndex x); mret (ta_zeros T n)
          | VBool b => mret (ta_zeros T (if b then 1 else 0)%nat)
          end;
      a ← alloc t;
      mret (a, t)
  end.

(** [val.toFloat32Array ? val.toFloat32Array() : val], seen as the
    array-like that [set] copies from: a primitive has no elements. *)
Definition flatten (val : Value) : list float :=
  match val with
  | VArray _ (Some r) => r
  | VArray elems None => ToNumber <$> elems
  | VNum _ | VBool _ => []
  end.

Definition callSetter (s : Setter) (val : Value) : JS unit :=
  match s with
  | ArraySetter f loc typedArray =>
      (* val => glFunction(loc, new typedArray(val)) *)
      '(a, t) ← construct typedArray val;
      emit {| call_fn := f; call_loc := loc; call_args := [ATyped a t] |}
  | MatrixSetter f loc =>
      (* val => glFunction(loc, false, val.toFloat32Array()) *)
      match val with
      | VArray _ (Some r) =>
          emit {| call_fn := f; call_loc := loc;
                  call_args := [AValue (VBool false); AFloat32 r] |}
      | _ => throw TypeError
      end
  | VectorSetter f loc typedArray =>
      (* val => { typedArray.set(...); glFunction(loc, typedArray); } *)
      match typedArray with
      | TACtor _ => throw TypeError
      | TAInst a =>
          t ← load a;
          t' ← lift (ta_set t (flatten val));
          store a t';;
          emit {| call_fn := f; call_loc := loc; call_args := [ATyped a t'] |}
      end
  | PrimitiveSetter f loc =>
      (* val => glFunction(loc, val) *)
      emit {| call_fn := f; call_loc := loc; call_args := [AValue val] |}
  end.

(** A closure called without an argument, so that [val] is [undefined]:
    [new typedArray(undefined)] has no elements, and reading
    [toFloat32Array] from [undefined] throws. *)
Definition callSetterUndefined (s : Setter) : JS unit :=
  match s with
  | ArraySetter f loc typedArray =>
      match typedArray with
      | TAInst _ => throw TypeError
      | TACtor T =>
          a ← alloc (ta_zeros T 0);
          emit {| call_fn := f; call_loc := loc;
                  call_args := [ATyped a (ta_zeros T 0)] |}
      end
  | MatrixSetter f loc => throw TypeError
  | VectorSetter f loc typedArray => throw TypeError
  | PrimitiveSetter f loc =>
      emit {| call_fn := f; call_loc := loc; call_args := [AUndefined] |}
  end.

(** ** Objects used as dictionaries

    [attributes], [uniforms] and [duplist] are created by the literal [{}],
    so besides their own keys they inherit the members of
    [Object.prototype]; the operator [in] and the lookup [o[key]] both see
    them. One of these members, [__proto__], is an accessor: reading it
    yields the prototype of the object; assigning an object to it replaces
    the prototype and creates no key, and assigning a primitive does
    nothing. The constructor assigns closures to [uniforms], so after a
    uniform named [__proto__] the prototype of [uniforms] is that closure,
    an arrow function, and the object inherits the members of the closure
    ([length], [name]) and of [Function.prototype] as well. *)
Definition objectPrototypeKeys : list string :=
  ["constructor"; "__defineGetter__"; "__defineSetter__"; "hasOwnProperty";
   "__lookupGetter__"; "__lookupSetter__"; "isPrototypeOf";
   "propertyIsEnumerable"; "toString"; "valueOf"; "__proto__";
   "toLocaleString"].

Definition inherited (key : string) : bool :=
  bool_decide (key ∈ objectPrototypeKeys).

(** The string keys of an arrow function and of [Function.prototype]. *)
Definition functionKeys : list string :=
  ["length"; "name"; "arguments"; "caller"; "constructor"; "apply"; "bind";
   "call"; "toString"].

(** The keys that [uniforms] inherits: [prototype] is [None] while the
    prototype is [Object.prototype], and [Some p] once the closure [p] has
    taken its place. *)
Definition inheritedVia (prototype : option Setter) (key : string) : bool :=
  inherited key
  || match prototype with
     | Some _ => bool_decide (key ∈ functionKeys)
     | None => false
     end.

(** The prototype that holds a built-in function. *)
Inductive Origin : Type := OfFunctionPrototype | OfObjectPrototype.

(** What reading a property of [uniforms] yields besides [undefined]. *)
Inductive Member : Type :=
| Closure (s : Setter)                   (* a closure of [getUniformSetter] *)
| BuiltIn (origin : Origin) (key : string)  (* a function of the platform *)
| NotCallable.                           (* a number, a string, an object *)

(** [name in uniforms] *)
Definition hasProperty (uniforms : gmap string Setter)
  (prototype : option Setter) (name : string) : bool :=
  bool_decide (is_Some (uniforms !! name)) || inheritedVia prototype name.

(** [uniforms[name]], [None] standing for [undefined]. An own key comes
    first, then the closure that is the prototype (its [length] is a number
    and its [name] a string), then [Function.prototype] (whose accessors
    [arguments] and [caller] throw when read), then [Object.prototype]
    (where [__proto__] yields the prototype itself). *)
Definition getMember (uniforms : gmap string Setter)
  (prototype : option Setter) (name : string) : Completion (option Member) :=
  match uniforms !! name with
  | Some s => Normal (Some (Closure s))
  | None =>
      match prototype with
      | Some p =>
          if bool_decide (name ∈ ["length"; "name"]) then
            Normal (Some NotCallable)
          else if bool_decide (name ∈ ["arguments"; "caller"]) then
            Throw TypeError
          else if bool_decide (name ∈ functionKeys) then
            Normal (Some (BuiltIn OfFunctionPrototype name))
          else if String.eqb name "__proto__" then Normal (Some (Closure p))
          else if inherited name then
            Normal (Some (BuiltIn OfObjectPrototype name))
          else Normal None
      | None =>
          if String.eqb name "__proto__" then Normal (Some NotCallable)
          else if inherited name then
            Normal (Some (BuiltIn OfObjectPrototype name))
          else Normal None
      end
  end.

(** [uniforms.toString()], as [Object.prototype.toLocaleString] invokes
    it: a uniform named [toString] is called without an argument;
    [Function.prototype.toString] rejects an object that is no function;
    [Object.prototype.toString] returns. *)
Definition invokeToString (uniforms : gmap string Setter)
  (prototype : option Setter) : JS unit :=
  match uniforms !! "toString" with
  | Some s => callSetterUndefined s
  | None =>
      match prototype with
      | Some _ => throw TypeError
      | None => mret tt
      end
  end.

(** [member(value)] with [uniforms] as the receiver: calling [undefined]
    or a value that is no function is a [TypeError]. Of
    [Function.prototype], [apply], [bind], [call] and [toString] reject a
    receiver that is no function, and [constructor] is [Function], which
    compiles the text of a number, a boolean or an array of them without
    running it. Of [Object.prototype], [__defineGetter__] and
    [__defineSetter__] reject their missing second argument,
    [toLocaleString] invokes [toString], and the other members return
    without reaching the driver. *)
Definition callMember (uniforms : gmap string Setter)
  (prototype : option Setter) (m : option Member) (value : Value) : JS unit :=
  match m with
  | None => throw TypeError
  | Some NotCallable => throw TypeError
  | Some (Closure s) => callSetter s value
  | Some (BuiltIn OfFunctionPrototype key) =>
      if String.eqb key "constructor" then mret tt else throw TypeError
  | Some (BuiltIn OfObjectPrototype key) =>
      if bool_decide (key ∈ ["__defineGetter__"; "__defineSetter__"])
      then throw TypeError
      else if String.eqb key "toLocaleString"
           then invokeToString uniforms prototype
           else mret tt
  end.

(** ** [createShader], [createProgram] and the [Program] constructor *)

Definition shaderTypeTag (t : ShaderType) : string :=
  match t with
  | VERTEX_SHADER => "35633"
  | FRAGMENT_SHADER => "35632"
  end.

Definition createShader (gl : GL) (shaderSource : string)
  (shaderType : ShaderType) : JS Handle :=
  match gl_createShader gl shaderType with
  | None =>
      throw (Error ("Error creating shader with type "
                    +:+ shaderTypeTag shaderType))
  | Some shader =>
      if gl_compileStatus gl shaderType shaderSource then mret shader
      else throw (Error ("Error while compiling the shader "
                         +:+ gl_getShaderInfoLog gl shaderType shaderSource))
  end.

Definition createProgram (gl : GL) (vertexShader fragmentShader : string)
  : JS (option Handle) :=
  vs ← createShader gl vertexShader VERTEX_SHADER;
  fs ← createShader gl fragmentShader FRAGMENT_SHADER;
  let glProgram := gl_createProgram gl in
  linked ← match glProgram with
           | Some _ => mret (gl_linkStatus gl vertexShader fragmentShader)
           | None => lift (gl_nullProgram gl)
           end;
  if (linked : bool) then mret glProgram
  else throw (Error ("Error linking shader "
                     +:+ gl_getProgramInfoLog gl vertexShader fragmentShader)).

(** The fields of a [Program] that the constructor fills from the driver;
    [app] is only handed on to the application. [uniforms] holds the own
    keys of the object [this.uniforms] and [uniformsPrototype] its
    prototype: [None] for [Object.prototype], [Some p] for the closure
    [p]. *)
Record Program : Type := {
  program : Handle;
  attributes : gmap string Z;
  attributeEnabled : gmap string bool;
  uniforms : gmap string Setter;
  uniformsPrototype : option Setter
}.

(** [name[name.length - 1] === ']' ? name.substr(0, name.length - 3) : name] *)
Definition cleanName (name : string) : string :=
  if bool_decide (String.get (String.length name - 1)%nat name
                  = Some "]"%char)
  then substring 0 (String.length name - 3)%nat name
  else name.

(** [attributes[name] = index]: an own key is overwritten; otherwise the
    name [__proto__] reaches the accessor of [Object.prototype], which
    ignores a number, and any other name becomes an own key. *)
Definition assignAttribute (name : string) (index : Z)
  (attributes : gmap string Z) : gmap string Z :=
  if bool_decide (is_Some (attributes !! name)) then <[name := index]> attributes
  else if String.eqb name "__proto__" then attributes
  else <[name := index]> attributes.

Definition attributeLoop (gl : GL) (infos : list ActiveInfo)
  (attributes : gmap string Z) : gmap string Z :=
  foldl (fun acc info =>
           assignAttribute (info_name info)
             (gl_getAttribLocation gl (info_name info)) acc)
        attributes infos.

(** [uniforms[name] = setter] in strict code: an own key is overwritten;
    otherwise the name [__proto__] reaches the accessor of
    [Object.prototype], which makes the closure the prototype of
    [uniforms]; once a closure is the prototype, [length] and [name] are
    inherited read-only and [arguments] and [caller] have a setter that
    throws, so that assigning to them is a [TypeError]; any other name
    becomes an own key. *)
Definition assignUniform (name : string) (setter : Setter)
  (uniforms : gmap string Setter) (prototype : option Setter)
  : JS (gmap string Setter * option Setter) :=
  if bool_decide (is_Some (uniforms !! name)) then
    mret (<[name := setter]> uniforms, prototype)
  else if String.eqb name "__proto__" then mret (uniforms, Some setter)
  else match prototype with
       | Some _ =>
           if bool_decide (name ∈ ["length"; "name"; "arguments"; "caller"])
           then throw TypeError
           else mret (<[name := setter]> uniforms, prototype)
       | None => mret (<[name := setter]> uniforms, prototype)
       end.

Fixpoint uniformLoop (gl : GL) (glProgram : Handle)
  (infos : list ActiveInfo) (uniforms : gmap string Setter)
  (prototype : option Setter) : JS (gmap string Setter * option Setter) :=
  match infos with
  | [] => mret (uniforms, prototype)
  | info :: rest =>
      let name := cleanName (info_name info) in
      s ← getUniformSetter gl glProgram info
            (negb (String.eqb (info_name info) name));
      '(uniforms, prototype) ← assignUniform name s uniforms prototype;
      uniformLoop gl glProgram rest uniforms prototype
  end.

(** [new Program(app, vertexShader, fragmentShader)] with [gl = app.gl]. *)
Definition newProgram (gl : GL) (vertexShader fragmentShader : string)
  : JS Program :=
  glProgram ← createProgram gl vertexShader fragmentShader;
  match glProgram with
  | None => throw (Error "Failed to create program")
  | Some glProgram =>
      let attributes := attributeLoop gl (gl_getActiveAttribs gl) ∅ in
      '(uniforms, prototype) ←
        uniformLoop gl glProgram (gl_getActiveUniforms gl) ∅ None;
      mret {| program := glProgram; attributes := attributes;
              attributeEnabled := ∅; uniforms := uniforms;
              uniformsPrototype := prototype |}
  end.

(** ** [setUniform] and [setUniforms] *)

Definition setUniform (this : Program) (name : string) (value : Value)
  : JS Program :=
  (if hasProperty (uniforms this) (uniformsPrototype this) name
   then m ← lift (getMember (uniforms this) (uniformsPrototype this) name);
        callMember (uniforms this) (uniformsPrototype this) m value
   else mret tt);;
  mret this.

(** [forms] lists the own enumerable keys of the argument, in the order of
    [Object.keys], each with its value. *)
Fixpoint setUniformsLoop (this : Program) (forms : list (string * Value))
  : JS unit :=
  match forms with
  | [] => mret tt
  | (name, value) :: rest =>
      (if hasProperty (uniforms this) (uniformsPrototype this) name
       then m ← lift (getMember (uniforms this) (uniformsPrototype this) name);
            callMember (uniforms this) (uniformsPrototype this) m value
       else mret tt);;
      setUniformsLoop this rest
  end.

Definition setUniforms (this : Program) (forms : list (string * Value))
  : JS Program :=
  setUniformsLoop this forms;; mret this.

(** [setter] called once per value, in order. *)
Fixpoint callAll (s : Setter) (vals : list Value) : JS unit :=
  match vals with
  | [] => mret tt
  | v :: rest => callSetter s v;; callAll s rest
  end.

(** ** Shader sources as strings

    A string is a sequence of code units; the sources handled here stay in
    the range 0-255, one [ascii] per code unit. *)

Definition dquote : ascii := "034"%char.

Definition isLineTerminator (c : ascii) : bool :=
  bool_decide (c = "010"%char) || bool_decide (c = "013"%char).

(** The class [\s] on code units below 256. *)
Definition isSpace (c : ascii) : bool :=
  bool_decide (c ∈ ["009"; "010"; "011"; "012"; "013"; " "; "160"]%char).

(** The class [[A-Za-z_\-0-9]]. *)
Definition isExtensionChar (c : ascii) : bool :=
  let n := nat_of_ascii c in
  ((65 <=? n) && (n <=? 90) || (97 <=? n) && (n <=? 122)
   || (48 <=? n) && (n <=? 57)
   || bool_decide (c = "_"%char) || bool_decide (c = "-"%char))%nat.

(** [s] without the prefix [p], when it starts with [p]. *)
Fixpoint stripPrefix (p s : string) : option string :=
  match p, s with
  | EmptyString, _ => Some s
  | String a p', String b s' =>
      if bool_decide (a = b) then stripPrefix p' s' else None
  | String _ _, EmptyString => None
  end.

(** [path.lastIndexOf(c)], -1 when [c] does not occur. *)
Fixpoint lastIndexOf (c : ascii) (path : string) : Z :=
  match path with
  | EmptyString => -1
  | String a rest =>
      let r := lastIndexOf c rest in
      if 0 <=? r then r + 1
      else if bool_decide (a = c) then 0 else -1
  end.

(** The local function [getpath]. Its test [last === '/'] compares a number
    with a string and is never true. *)
Definition getpath (path : string) : string :=
  let last := lastIndexOf "/" path in
  substring 0 (Z.to_nat (last + 1)) path.

(** The lazy group [(.*?)] followed by the closing quote: the text up to
    the first quote, unless a line terminator comes first. *)
Fixpoint untilQuote (s : string) : option (string * string) :=
  match s with
  | EmptyString => None
  | String c rest =>
      if bool_decide (c = dquote) then Some (EmptyString, rest)
      else if isLineTerminator c then None
      else match untilQuote rest with
           | Some (captured, after) => Some (String c captured, after)
           | None => None
           end
  end.

Definition includeKeyword : string := "#include " +:+ String dquote "".

(** The pattern [#include "(.*?)"] tried at the start of [s]. *)
Definition matchIncludeHere (s : string) : option (string * string) :=
  match stripPrefix includeKeyword s with
  | Some rest => untilQuote rest
  | None => None
  end.

(** [source.match(/#include "(.*?)"/)]: the leftmost match, as the text
    before it, the captured path and the text after it. *)
Fixpoint matchInclude (source : string)
  : option (string * string * string) :=
  match matchIncludeHere source with
  | Some (captured, after) => Some (EmptyString, captured, after)
  | None =>
      match source with
      | EmptyString => None
      | String c rest =>
          match matchInclude rest with
          | Some (before, captured, after) =>
              Some (String c before, captured, after)
          | None => None
          end
      end
  end.

Fixpoint skipSpaces (s : string) : string :=
  match s with
  | EmptyString => EmptyString
  | String c rest => if isSpace c then skipSpaces rest else s
  end.

(** The longest run of extension-name characters at the start of [s], and
    what follows it. *)
Fixpoint takeName (s : string) : string * string :=
  match s with
  | EmptyString => (EmptyString, EmptyString)
  | String c rest =>
      if isExtensionChar c then
        let '(name, after) := takeName rest in (String c name, after)
      else (EmptyString, s)
  end.

(** The pattern [\sHAS_EXTENSION\s*\(\s*([A-Za-z_\-0-9]+)\s*\)] tried at
    the start of [s]: the captured name and the text after the match. *)
Definition matchHasExtension (s : string) : option (string * string) :=
  match s with
  | EmptyString => None
  | String c r0 =>
      if isSpace c then
        r1 ← stripPrefix "HAS_EXTENSION" r0;
        r2 ← stripPrefix "(" (skipSpaces r1);
        let '(ext, r3) := takeName (skipSpaces r2) in
        if bool_decide (ext = EmptyString) then None
        else r4 ← stripPrefix ")" (skipSpaces r3); Some (ext, r4)
      else None
  end.

(** The global [replace] of the macro: matches are found left to right and
    do not overlap; [skip] counts the code units of the current match that
    are still to be dropped. *)
Fixpoint rewriteFrom (gl : GL) (skip : nat) (s : string) : string :=
  match s with
  | EmptyString => EmptyString
  | String c rest =>
      match skip with
      | S k => rewriteFrom gl k rest
      | O =>
          match matchHasExtension s with
          | Some (ext, after) =>
              (if gl_getExtension gl ext then " 1 " else " 0 ")
              +:+ rewriteFrom gl (String.length rest - String.length after)
                              rest
          | None => String c (rewriteFrom gl 0 rest)
          end
      end
  end.

Definition rewriteExtensions (gl : GL) (source : string) : string :=
  rewriteFrom gl 0 source.

(** ** [recursiveLoad] *)

(** What [recursiveLoad] receives as [source]: a text, or the object that
    [sendAsync()] hands back while the response is pending, which is not a
    string and has no method [match]. *)
Inductive Source : Type :=
| SText (text : string)
| SPending.

(** What a settled call of [recursiveLoad] resolves to. *)
Inductive Loaded : Type :=
| Undefined
| Text (text : string).

(** The second argument of [String.prototype.replace] as a string. A text
    would also have its dollar patterns expanded; no call resolves to a
    text. *)
Definition replacementText (v : Loaded) : string :=
  match v with
  | Undefined => "undefined"
  | Text t => t
  end.

(** [duplist[url]] is truthy for an own key and for every member inherited
    from [Object.prototype]. *)
Definition truthy (duplist : gset string) (url : string) : bool :=
  bool_decide (url ∈ duplist) || inherited url.

Definition loadFailed (url : string) : JSError :=
  Error ("Load including file " +:+ url +:+ " failed").

(** [recursiveLoad(gl, base, source, duplist)]. [xhr url] is the value of
    [new XHR({url: url, noCache: true}).sendAsync()]. The call is
    asynchronous: [None] says that it has not settled within [fuel] nested
    calls, [Some (Normal v)] that it resolved to [v], and [Some (Throw e)]
    that it was rejected with [e].

    [attempt] is the part of the [try] block before its [return]. The
    identifier [callbackError] is bound nowhere, so the branch of the
    duplicate test ends in a [ReferenceError]; that error and a rejection
    of the awaited nested call reach [catch], which throws [loadFailed url]
    instead. The final call is returned without [await], so its rejection
    passes through unchanged. *)
Fixpoint recursiveLoad (fuel : nat) (gl : GL) (xhr : string -> Source)
  (base : string) (source : Source) (duplist : gset string)
  : option (Completion Loaded) :=
  match fuel with
  | O => None
  | S fuel =>
      match source with
      | SPending => Some (Throw TypeError)
      | SText source =>
          match matchInclude source with
          | None => Some (Normal Undefined)
          | Some (before, path, after) =>
              let url := getpath base +:+ path in
              let attempt : option (Completion (string * gset string)) :=
                if truthy duplist url then Some (Throw ReferenceError)
                else
                  let response := xhr url in
                  let duplist1 := {[url]} ∪ duplist in
                  match recursiveLoad fuel gl xhr url response ∅ with
                  | None => None
                  | Some (Throw e) => Some (Throw e)
                  | Some (Normal replacement) =>
                      let duplist2 := duplist1 ∖ {[url]} in
                      let source1 :=
                        before +:+ replacementText replacement +:+ after in
                      let source2 := rewriteExtensions gl source1 in
                      Some (Normal (source2, duplist2))
                  end in
              match attempt with
              | None => None
              | Some (Throw _) => Some (Throw (loadFailed url))
              | Some (Normal (source2, duplist2)) =>
                  recursiveLoad fuel gl xhr url (SText source2) duplist2
              end
          end
      end
  end.

(** ** Vocabulary of the specification *)

(** The number that reading an element of a [Uint16Array] yields. *)
Definition numberOfZ (z : Z) : float := of_uint63 (Uint63.of_Z z).

(** The elements of a typed array read back as numbers. *)
Definition ta_numbers (t : TypedArray) : list float :=
  match t with
  | F32 d => d
  | U16 d => numberOfZ <$> d
  end.

(** [x] survives being stored in a [Float32Array] and in an array of type
    [T]. *)
Definition representable (T : ArrayType) (x : float) : Prop :=
  fround x = x ∧ ta_numbers (ta_of_numbers T [x]) = [x].

(** The classification table of the specification. *)
Inductive Base : Type := Floating | Integral.
Inductive Dim : Type := D2 | D3 | D4.

Inductive Kind : Type :=
| KScalar (b : Base)
| KVector (b : Base) (d : Dim)
| KMatrix (d : Dim).

Definition classification : list (Z * Kind) :=
  [(FLOAT, KScalar Floating);
   (INT, KScalar Integral); (BOOL, KScalar Integral);
   (SAMPLER_2D, KScalar Integral); (SAMPLER_CUBE, KScalar Integral);
   (FLOAT_VEC2, KVector Floating D2); (FLOAT_VEC3, KVector Floating D3);
   (FLOAT_VEC4, KVector Floating D4);
   (INT_VEC2, KVector Integral D2); (INT_VEC3, KVector Integral D3);
   (INT_VEC4, KVector Integral D4);
   (BOOL_VEC2, KVector Integral D2); (BOOL_VEC3, KVector Integral D3);
   (BOOL_VEC4, KVector Integral D4);
   (FLOAT_MAT2, KMatrix D2); (FLOAT_MAT3, KMatrix D3);
   (FLOAT_MAT4, KMatrix D4)].

Definition kindOf (type : Z) : option Kind :=
  snd <$> List.find (fun entry => fst entry =? type) classification.

Definition components (d : Dim) : nat :=
  match d with D2 => 2 | D3 => 3 | D4 => 4 end%nat.

Definition staging (b : Base) : ArrayType :=
  match b with Floating => Float32Array | Integral => Uint16Array end.

(** The upload call that matches a kind; [arrayVariant] selects [1fv]/[1iv]
    for arrays of scalars. *)
Definition upload (k : Kind) (arrayVariant : bool) : GLFunction :=
  match k with
  | KScalar Floating => if arrayVariant then uniform1fv else uniform1f
  | KScalar Integral => if arrayVariant then uniform1iv else uniform1i
  | KVector Floating D2 => uniform2fv
  | KVector Floating D3 => uniform3fv
  | KVector Floating D4 => uniform4fv
  | KVector Integral D2 => uniform2iv
  | KVector Integral D3 => uniform3iv
  | KVector Integral D4 => uniform4iv
  | KMatrix D2 => uniformMatrix2fv
  | KMatrix D3 => uniformMatrix3fv
  | KMatrix D4 => uniformMatrix4fv
  end.

(** An array of more than one element, the case of the first [switch]. *)
Definition properArray (info : ActiveInfo) (isArray : bool) : bool :=
  (1 <? info_size info) && isArray.

(** The numbers of an array-like value, element by element. *)
Definition numbers (v : Value) : list float :=
  match v with
  | VArray elems _ => ToNumber <$> elems
  | VNum _ | VBool _ => []
  end.

(** A math object is coherent when [toFloat32Array()] returns its own
    elements, stored as binary32. *)
Definition coherent (v : Value) : Prop :=
  match v with
  | VArray elems (Some r) => r = fround <$> (ToNumber <$> elems)
  | _ => True
  end.

(** A value of the right shape for a uniform of kind [k]: a primitive for
    a scalar, an array-like of representable numbers for an array of
    scalars and for a vector (with as many elements as the vector has
    components when the setter stages them in its own buffer), a math
    object for a matrix. *)
Definition wellShaped (k : Kind) (arrayVariant isArray : bool) (v : Value)
  : Prop :=
  match k with
  | KScalar b =>
      if arrayVariant
      then (∃ elems conv, v = VArray elems conv)
           ∧ Forall (representable (staging b)) (numbers v)
      else (∃ x, v = VNum x) ∨ (∃ y, v = VBool y)
  | KVector b d =>
      (∃ elems conv, v = VArray elems conv) ∧ coherent v
      ∧ Forall (representable (staging b)) (numbers v)
      ∧ (isArray = false → length (numbers v) = components d)
  | KMatrix d =>
      (∃ elems r, v = VArray elems (Some r)) ∧ coherent v
      ∧ Forall (representable Float32Array) (numbers v)
  end.

(** The arguments after the location that the upload call of a kind is
    expected to receive for the value [v]. *)
Definition carries (k : Kind) (arrayVariant : bool) (v : Value)
  (args : list DriverArg) : Prop :=
  match k with
  | KScalar b =>
      if arrayVariant
      then ∃ address contents,
             args = [ATyped address contents]
             ∧ ta_type contents = staging b
             ∧ ta_numbers contents = numbers v
      else args = [AValue v]
  | KVector b d =>
      ∃ address contents,
        args = [ATyped address contents]
        ∧ ta_type contents = staging b
        ∧ ta_numbers contents = numbers v
  | KMatrix d =>
      ∃ data, args = [AValue (VBool false); AFloat32 data]
              ∧ data = numbers v
  end.

(** The closure that the classification table asks for, and the world
    after building it: only a vector that is not an array allocates. *)
Definition expectedSetter (k : Kind) (loc : Location) (isArray : bool)
  (w : World) : Setter * World :=
  match k with
  | KScalar b => (PrimitiveSetter (upload k false) loc, w)
  | KVector b d =>
      if isArray
      then (ArraySetter (upload k false) loc (TACtor (staging b)), w)
      else (VectorSetter (upload k false) loc (TAInst (length (heap w))),
            {| heap := heap w ++ [ta_zeros (staging b) (components d)];
               calls := calls w |})
  | KMatrix d => (MatrixSetter (upload k false) loc, w)
  end.


(** A closure of the scalar, vector or matrix variant for kind [k]. *)
Definition plainVariant (k : Kind) (loc : Location) (s : Setter) : Prop :=
  match k with
  | KScalar _ => s = PrimitiveSetter (upload k false) loc
  | KVector b d =>
      ∃ address, s = VectorSetter (upload k false) loc (TAInst address)
  | KMatrix _ => s = MatrixSetter (upload k false) loc
  end.

(** The key under which the constructor registers a uniform, and the flag
    it passes to [getUniformSetter]. *)
Definition keyOf (info : ActiveInfo) : string := cleanName (info_name info).

Definition isArrayOf (info : ActiveInfo) : bool :=
  negb (String.eqb (info_name info) (keyOf info)).

(** The source contains text that the pattern of [#include] matches: the
    keyword, a path free of line terminators, and a closing quote. *)
Definition hasIncludeDirective (source : string) : Prop :=
  ∃ before path after,
    source = before +:+ includeKeyword +:+ path +:+ String dquote after
    ∧ ∀ c, In c (list_ascii_of_string path) → isLineTerminator c = false.

(** A name that the character class of the macro accepts. *)
Definition extensionName (ext : string) : Prop :=
  ext ≠ EmptyString
  ∧ ∀ c, In c (list_ascii_of_string ext) → isExtensionChar c = true.

(** [recursiveLoad] with the parameter [duplist] and its bookkeeping taken
    out: the duplicate test is left with the members that every object
    inherits. *)
Fixpoint loadWithoutDuplist (fuel : nat) (gl : GL) (xhr : string -> Source)
  (base : string) (source : Source) : option (Completion Loaded) :=
  match fuel with
  | O => None
  | S fuel =>
      match source with
      | SPending => Some (Throw TypeError)
      | SText source =>
          match matchInclude source with
          | None => Some (Normal Undefined)
          | Some (before, path, after) =>
              let url := getpath base +:+ path in
              if inherited url then Some (Throw (loadFailed url))
              else
                match loadWithoutDuplist fuel gl xhr url (xhr url) with
                | None => None
                | Some (Throw _) => Some (Throw (loadFailed url))
                | Some (Normal replacement) =>
                    loadWithoutDuplist fuel gl xhr url
                      (SText (rewriteExtensions gl
                                (before +:+ replacementText replacement
                                 +:+ after)))
                end
          end
      end
  end.

(** ** Sample drivers, uniforms and sources *)

Definition emptyWorld : World := {| heap := []; calls := [] |}.

(** A driver that compiles and links everything and reports [active] as
    the active uniforms, each at the location given by its position. *)
Definition sampleGL (active : list ActiveInfo) (extensions : list string)
  : GL :=
  {| gl_createShader := fun _ => Some 1%positive;
     gl_compileStatus := fun _ _ => true;
     gl_getShaderInfoLog := fun _ _ => EmptyString;
     gl_createProgram := Some 2%positive;
     gl_nullProgram := Throw TypeError;
     gl_linkStatus := fun _ _ => true;
     gl_getProgramInfoLog := fun _ _ => EmptyString;
     gl_getActiveAttribs := [];
     gl_getAttribLocation := fun _ => 0;
     gl_getActiveUniforms := active;
     gl_getUniformLocation := fun name =>
       (fun found => Z.of_nat found.1)
         <$> list_find (fun i => String.eqb (info_name i) name) active;
     gl_getExtension := fun ext => bool_decide (ext ∈ extensions) |}.

Definition uniform (name : string) (type size : Z) : ActiveInfo :=
  {| info_name := name; info_type := type; info_size := size |}.

(** Type tags that a WebGL 2 context reports and the table lacks. *)
Definition UNSIGNED_INT : Z := 0x1405.
Definition SAMPLER_3D : Z := 0x8B5F.

Definition plainArray (xs : list float) : Value := VArray (PNum <$> xs) None.

(** A math object whose [toFloat32Array()] returns its elements. *)
Definition mathObject (xs : list float) : Value :=
  VArray (PNum <$> xs) (Some (fround <$> xs)).

Definition identity4 : list float :=
  [1; 0; 0; 0; 0; 1; 0; 0; 0; 0; 1; 0; 0; 0; 0; 1]%float.

(** Sample uniforms. *)
Definition colorInfo : ActiveInfo := uniform "color" FLOAT_VEC3 1.
Definition lightsInfo : ActiveInfo := uniform "lights[0]" FLOAT_VEC3 4.
Definition colorsInfo : ActiveInfo := uniform "colors[0]" FLOAT_VEC4 3.
Definition weightsInfo : ActiveInfo := uniform "weights[0]" FLOAT 3.
Definition cellInfo : ActiveInfo := uniform "cell" INT_VEC3 1.
Definition matrixInfo : ActiveInfo := uniform "uMVMatrix" FLOAT_MAT4 1.
Definition countInfo : ActiveInfo := uniform "count" UNSIGNED_INT 1.

(** The program that the constructor builds for [weights[0]] and [color],
    and the world it leaves. *)
Definition sampleProgram : Program :=
  {| program := 2%positive;
     attributes := ∅;
     attributeEnabled := ∅;
     uniforms :=
       <["color" := VectorSetter uniform3fv (Some 1) (TAInst 0)]>
         (<["weights" := ArraySetter uniform1fv (Some 0)
                           (TACtor Float32Array)]> ∅);
     uniformsPrototype := None |}.

Definition sampleWorld : World :=
  {| heap := [F32 [0; 0; 0]%float]; calls := [] |}.

Definition includeLine (path : string) : string :=
  includeKeyword +:+ path +:+ String dquote EmptyString.

(** [main.glsl] includes [a.glsl], which includes [main.glsl]; the fetcher
    hands the text over at once. *)
Definition cyclicFiles (url : string) : Source :=
  if String.eqb url "a.glsl" then SText (includeLine "main.glsl")
  else if String.eqb url "main.glsl" then SText (includeLine "a.glsl")
  else SText EmptyString.

(** The fetcher as [sendAsync()] behaves: the response is still pending
    when [recursiveLoad] passes it on. *)
Definition pendingFetch (url : string) : Source := SPending.

(** [lib.glsl] is a file without directives. *)
Definition libraryFiles (url : string) : Source :=
  if String.eqb url "lib.glsl" then SText "float lib;"
  else SText EmptyString.

(** ** Options and the alternate constructors

    The static methods of [Program] receive arbitrary values: primitives,
    a context, or a plain object given by its own enumerable properties in
    order (with distinct keys). *)
#[local] Unset Elimination Schemes.
Inductive JSValue : Type :=
| JUndefined
| JNull
| JBoolean (b : bool)
| JNumber (x : float)
| JString (s : string)
| JContext (gl : GL)
| JObject (props : list (string * JSValue)).
#[local] Set Elimination Schemes.

(** [ToBoolean] *)
Definition truthyValue (v : JSValue) : bool :=
  match v with
  | JUndefined | JNull => false
  | JBoolean b => b
  | JNumber x => negb (PrimFloat.eqb x 0 || PrimFloat.is_nan x)
  | JString s => negb (String.eqb s EmptyString)
  | JContext _ | JObject _ => true
  end.

(** [props[key]] for the keys that the constructors read ([app], [gl],
    [vs], [fs], [path], [noCache]), none of which is inherited. *)
Fixpoint getProp (props : list (string * JSValue)) (key : string) : JSValue :=
  match props with
  | [] => JUndefined
  | (k, v) :: rest => if String.eqb k key then v else getProp rest key
  end.

(** [props[key] = v]: an existing key keeps its place. *)
Fixpoint setProp (key : string) (v : JSValue)
  (props : list (string * JSValue)) : list (string * JSValue) :=
  match props with
  | [] => [(key, v)]
  | (k, old) :: rest =>
      if String.eqb k key then (k, v) :: rest
      else (k, old) :: setProp key v rest
  end.

(** [Object.assign(target, source)], which is what a spread inside an
    object literal does with the properties written so far. *)
Definition assign (target source : list (string * JSValue))
  : list (string * JSValue) :=
  foldl (fun acc entry => setProp entry.1 entry.2 acc) target source.

(** The key of an array index: its decimal numeral. *)
Definition indexKey (i : nat) : string :=
  NilEmpty.string_of_uint (Nat.to_uint i).

(** The own enumerable properties of an array with the given elements. *)
Definition indexProps (elems : list JSValue) : list (string * JSValue) :=
  imap (fun i v => (indexKey i, v)) elems.

(** The own enumerable properties that a spread copies from a value:
    those of an object, the characters of a string, nothing otherwise. *)
Definition ownProps (v : JSValue) : list (string * JSValue) :=
  match v with
  | JObject props => props
  | JString s =>
      indexProps ((fun c => JString (String c EmptyString))
                    <$> list_ascii_of_string s)
  | _ => []
  end.

(** [v.key] for the same keys: reading a member of [undefined] or [null]
    throws, a primitive or a context has none of them. *)
Definition member (v : JSValue) (key : string) : Completion JSValue :=
  match v with
  | JUndefined | JNull => Throw TypeError
  | JObject props => Normal (getProp props key)
  | _ => Normal JUndefined
  end.

(** A parameter or a destructured field with a default value. *)
Definition orDefault (default v : JSValue) : JSValue :=
  match v with
  | JUndefined => default
  | _ => v
  end.

(** [Program._getOptions(base = {}, ...args)] *)
Definition _getOptions (base : JSValue) (args : list JSValue)
  : list (string * JSValue) :=
  let base := orDefault (JObject []) base in
  if (length args =? 2)%nat then
    setProp "fs" (nth 1 args JUndefined)
      (setProp "vs" (nth 0 args JUndefined) (assign [] (ownProps base)))
  else
    let first := nth 0 args JUndefined in
    assign (assign [] (ownProps base))
      (ownProps (if truthyValue first then first else JObject [])).

(** [Promise.all(recursiveLoad(...), recursiveLoad(...))]: the first
    argument is a promise, which is not iterable, so the promise that
    [Promise.all] returns is rejected; the second argument is ignored. The
    two calls of [recursiveLoad] are started and settle unobserved. *)
Definition promiseAllOfPromise : JS (Loaded * Loaded) := throw TypeError.

(** [new Program(app, vertexShader, fragmentShader)] for an arbitrary
    [app] and for sources as [recursiveLoad] resolves them; the driver
    receives a source as a string. *)
Definition newProgramFrom (app : JSValue) (vertexShader fragmentShader : Loaded)
  : JS Program :=
  context ← lift (member app "gl");
  match context with
  | JContext gl =>
      newProgram gl (replacementText vertexShader)
        (replacementText fragmentShader)
  | _ => throw TypeError
  end.

(** [Program.fromShaderSources(...args)]. The object handed to
    [_getOptions] is [{path: './', ...args}]: the array [args] is spread
    inside the literal, and [_getOptions] itself gets no further
    argument. *)
Definition fromShaderSources (args : list JSValue) : JS Program :=
  let opt :=
    _getOptions (JObject (assign [("path", JString "./")] (indexProps args)))
      [] in
  gl ← lift (member (getProp opt "app") "gl");
  '(vertexShader, fragmentShader) ← promiseAllOfPromise;
  newProgramFrom (getProp opt "app") vertexShader fragmentShader.

(** [Program.fromDefaultShaders(opt = {})]. [shaderTable VERTEX_SHADER key]
    is [Shaders.Vertex[key]], from a module of the library that is an
    object with the fields [Vertex] and [Fragment]. *)
Definition fromDefaultShaders (shaderTable : ShaderType -> JSValue -> JSValue)
  (opt : JSValue) : JS Program :=
  let opt := orDefault (JObject []) opt in
  vs ← lift (member opt "vs");
  fs ← lift (member opt "fs");
  let vs := orDefault (JString "Default") vs in
  let fs := orDefault (JString "Default") fs in
  fromShaderSources
    [JObject (setProp "fs" (shaderTable FRAGMENT_SHADER fs)
                (setProp "vs" (shaderTable VERTEX_SHADER vs)
                   (assign [] (ownProps opt))))].

(** [Program.fromShaderURIs(opt = {})] up to [new XHRGroup(...)]: the
    module imports [XHR] only, so evaluating the identifier [XHRGroup]
    throws and the rest of the body is never run. Building the two URIs
    before that has no effect. *)
Definition fromShaderURIs (opt : JSValue) : JS Program :=
  let opt := orDefault (JObject []) opt in
  app ← lift (member opt "app");
  gl ← lift (member app "gl");
  throw ReferenceError.

(** [Program.fromShaderIds(...args)]. [dom id] is the [innerHTML] of
    [document.getElementById(id)], [None] when there is no such element. *)
Definition fromShaderIds (dom : JSValue -> option string)
  (args : list JSValue) : JS Program :=
  let opt := _getOptions (JObject []) args in
  gl ← lift (member (getProp opt "app") "gl");
  let vs := getProp opt "vs" in
  let fs := getProp opt "fs" in
  let path := getProp opt "path" in
  vertexText ← match dom vs with
               | Some text => mret text
               | None => throw TypeError
               end;
  fragmentText ← match dom fs with
                 | Some text => mret text
                 | None => throw TypeError
                 end;
  '(vertexShader, fragmentShader) ← promiseAllOfPromise;
  newProgramFrom (getProp opt "app") vertexShader fragmentShader.

(** ** Further vocabulary *)

(** The buffer that the constructor allocates for a uniform: one for each
    vector that is not reported as an array. *)
Definition scratchOf (info : ActiveInfo) : option TypedArray :=
  match kindOf (info_type info) with
  | Some (KVector b d) =>
      if isArrayOf info then None
      else Some (ta_zeros (staging b) (components d))
  | _ => None
  end.




(** The way a uniform is registered in [uniforms] under [key]: as an own
    key, or, for the key [__proto__], as the prototype of the object. *)
Definition registered (uniforms : gmap string Setter)
  (prototype : option Setter) (key : string) (s : Setter) : Prop :=
  if String.eqb key "__proto__" then prototype = Some s
  else uniforms !! key = Some s.

(** The call that the array closure makes for the [i]-th value of a run
    that starts with [n] objects in the heap. *)
Definition arrayCall (f : GLFunction) (loc : Location) (T : ArrayType)
  (n i : nat) (v : Value) : DriverCall :=
  {| call_fn := f; call_loc := loc;
     call_args := [ATyped (n + i) (ta_of_numbers T (numbers v))] |}.

Definition isArrayLike (v : Value) : Prop :=
  match v with
  | VArray _ _ => True
  | _ => False
  end.

(** A driver whose stages compile as [compiles] says, that links when
    [links] holds, and that reports the given attributes (each at the
    location given by the length of its name) and uniforms. *)
Definition stubGL (compiles : ShaderType -> bool) (links : bool)
  (attribs active : list ActiveInfo) : GL :=
  {| gl_createShader := fun _ => Some 1%positive;
     gl_compileStatus := fun t _ => compiles t;
     gl_getShaderInfoLog := fun _ _ => "ERROR: 0:1: syntax error";
     gl_createProgram := Some 2%positive;
     gl_nullProgram := Throw TypeError;
     gl_linkStatus := fun _ _ => links;
     gl_getProgramInfoLog := fun _ _ => "varyings do not match";
     gl_getActiveAttribs := attribs;
     gl_getAttribLocation := fun name => Z.of_nat (String.length name);
     gl_getActiveUniforms := active;
     gl_getUniformLocation := fun name =>
       (fun found => Z.of_nat found.1)
         <$> list_find (fun i => String.eqb (info_name i) name) active;
     gl_getExtension := fun _ => false |}.


Definition positionInfo : ActiveInfo := uniform "aPosition" FLOAT_VEC3 1.
Definition normalInfo : ActiveInfo := uniform "aNormal" FLOAT_VEC3 1.

Definition lessonGL : GL :=
  stubGL (fun _ => true) true [positionInfo; normalInfo]
    [matrixInfo; colorInfo; weightsInfo; cellInfo].

(** The program that the constructor builds on [lessonGL], and the world
    it leaves. *)
Definition lessonProgram : Program :=
  {| program := 2%positive;
     attributes := <["aNormal" := 7]> (<["aPosition" := 9]> ∅);
     attributeEnabled := ∅;
     uniforms :=
       <["cell" := VectorSetter uniform3iv (Some 3) (TAInst 1)]>
         (<["weights" := ArraySetter uniform1fv (Some 2)
                           (TACtor Float32Array)]>
            (<["color" := VectorSetter uniform3fv (Some 1) (TAInst 0)]>
               (<["uMVMatrix" := MatrixSetter uniformMatrix4fv (Some 0)]>
                  ∅)));
     uniformsPrototype := None |}.

Definition lessonWorld : World :=
  {| heap := [F32 [0; 0; 0]%float; U16 [0; 0; 0]]; calls := [] |}.

(** Sample options. *)
Definition sampleApp : JSValue :=
  JObject [("gl", JContext (sampleGL [colorInfo] []))].

Definition sampleOptions : JSValue :=
  JObject [("app", sampleApp); ("vs", JString "vs.glsl");
           ("fs", JString "fs.glsl")].

(** A fetcher that delivers [lib.glsl] and leaves every other response
    pending. *)
Definition partialFetch (url : string) : Source :=
  if String.eqb url "sub/lib.glsl" then SText "float lib;" else SPending.

(** ** Properties of [getUniformSetter] *)

Lemma kindOf_cases (type : Z) (k : Kind) :
  kindOf type = Some k → (type, k) ∈ classification.
Proof.
  unfold kindOf. intros H.
  destruct (List.find _ classification) as [[t k']|] eqn:E; [|done].
  simpl in H. injection H as ->.
  apply List.find_some in E as [Hin Heq]. simpl in Heq.
  apply Z.eqb_eq in Heq. subst t. by apply list_elem_of_In.
Qed.

Lemma kindOf_none (type : Z) :
  kindOf type = None → ∀ t k, (t, k) ∈ classification → (type =? t) = false.
Proof.
  unfold kindOf. intros H t k Hin.
  destruct (List.find _ classification) as [[t' k']|] eqn:E; [done|].
  apply list_elem_of_In in Hin.
  pose proof (List.find_none _ _ E _ Hin) as Hne. simpl in Hne.
  by rewrite Z.eqb_sym.
Qed.

Ltac each_tag H :=
  apply kindOf_cases in H; unfold classification in H;
  repeat (apply elem_of_cons in H as [H|H]; [injection H as -> ->|]);
  [..|by apply elem_of_nil in H].

(** An array of more than one scalar gets the array closure; an array of
    more than one vector or matrix is rejected by the first [switch]. *)
Lemma getUniformSetter_array gl glProgram info k w :
  kindOf (info_type info) = Some k →
  1 < info_size info →
  getUniformSetter gl glProgram info true w =
    match k with
    | KScalar b =>
        (Normal (ArraySetter (upload k true)
                   (gl_getUniformLocation gl (info_name info))
                   (TACtor (staging b))), w)
    | _ => (Throw (Error "Uniform: Unknown GLSL type"), w)
    end.
Proof.
  intros Hk Hsize. destruct info as [name type size]; simpl in *.
  apply Z.ltb_lt in Hsize.
  unfold getUniformSetter; simpl. rewrite Hsize. simpl.
  each_tag Hk; reflexivity.
Qed.

(** Every other uniform of a supported type gets the closure of the
    classification table. *)
Lemma getUniformSetter_plain gl glProgram info isArray k w :
  kindOf (info_type info) = Some k →
  properArray info isArray = false →
  getUniformSetter gl glProgram info isArray w =
    (Normal (expectedSetter k (gl_getUniformLocation gl (info_name info))
               isArray w).1,
     (expectedSetter k (gl_getUniformLocation gl (info_name info))
        isArray w).2).
Proof.
  intros Hk Harr. destruct info as [name type size].
  unfold properArray in Harr. simpl in *.
  unfold getUniformSetter; simpl. rewrite Harr.
  each_tag Hk; destruct isArray; reflexivity.
Qed.

(** A type tag outside the table: the first [switch] throws for an array
    of more than one element; otherwise [glFunction] stays [undefined] and
    [glFunction.bind] fails. *)
Lemma getUniformSetter_unknown gl glProgram info isArray w :
  kindOf (info_type info) = None →
  getUniformSetter gl glProgram info isArray w =
    (Throw (if properArray info isArray
            then Error "Uniform: Unknown GLSL type" else TypeError), w).
Proof.
  intros Hk. pose proof (kindOf_none _ Hk) as Hne.
  destruct info as [name type size]. unfold properArray. simpl in *.
  assert (∀ t, (∃ k, (t, k) ∈ classification) → (type =? t) = false) as H
    by (intros t [k Hin]; eauto).
  unfold getUniformSetter, arraySwitch, vectorSwitch; simpl.
  rewrite !H by (eexists; unfold classification; repeat constructor).
  by destruct (_ && _).
Qed.

(** ** Typed arrays *)

Lemma ta_type_of_numbers T xs : ta_type (ta_of_numbers T xs) = T.
Proof. by destruct T. Qed.

Lemma ta_type_zeros T n : ta_type (ta_zeros T n) = T.
Proof. by destruct T. Qed.

Lemma ta_length_zeros T n : ta_length (ta_zeros T n) = n.
Proof. destruct T; simpl; apply length_replicate. Qed.


(** A source that fills the target leaves nothing of the old contents. *)
Lemma ta_set_full t xs :
  length xs = ta_length t →
  ta_set t xs = Normal (ta_of_numbers (ta_type t) xs).
Proof.
  intros Hlen. unfold ta_set.
  destruct (Nat.ltb_spec (ta_length t) (length xs)) as [Hlt|_]; [lia|].
  destruct t as [d|d]; simpl in *;
    rewrite drop_ge by lia; by rewrite app_nil_r.
Qed.

Lemma representable_fround T xs :
  Forall (representable T) xs → fround <$> xs = xs.
Proof.
  induction 1 as [|x xs [Hx _] _ IH]; [done|].
  rewrite fmap_cons. by rewrite Hx, IH.
Qed.

Lemma representable_numbers T xs :
  Forall (representable T) xs → ta_numbers (ta_of_numbers T xs) = xs.
Proof.
  induction 1 as [|x xs [_ Hx] _ IH]; [by destruct T|].
  destruct T; simpl in *; injection Hx as Hx; rewrite ?fmap_cons, Hx;
    f_equal; done.
Qed.

(** ** Calling the closures *)

Lemma callSetter_array f loc T elems conv w :
  let t := ta_of_numbers T (ToNumber <$> elems) in
  callSetter (ArraySetter f loc (TACtor T)) (VArray elems conv) w =
    (Normal tt,
     {| heap := heap w ++ [t];
        calls := calls w ++ [{| call_fn := f; call_loc := loc;
                                call_args := [ATyped (length (heap w)) t] |}]
     |}).
Proof. reflexivity. Qed.

Lemma callSetter_vector f loc a v w t :
  heap w !! a = Some t →
  length (flatten v) = ta_length t →
  let t' := ta_of_numbers (ta_type t) (flatten v) in
  callSetter (VectorSetter f loc (TAInst a)) v w =
    (Normal tt,
     {| heap := <[a := t']> (heap w);
        calls := calls w ++ [{| call_fn := f; call_loc := loc;
                                call_args := [ATyped a t'] |}] |}).
Proof.
  intros Hload Hlen. simpl.
  unfold mbind, JS_bind, load, lift, store, emit. rewrite Hload.
  by rewrite (ta_set_full _ _ Hlen).
Qed.

Lemma flatten_coherent T v :
  coherent v → Forall (representable T) (numbers v) → flatten v = numbers v.
Proof.
  destruct v as [x|y|elems [r|]]; simpl; try done.
  intros -> H. by apply (representable_fround T).
Qed.

(** For every active uniform of a supported type other than an array of
    more than one vector or matrix, [getUniformSetter] returns a setter
    without calling the driver; called with a value of the right shape
    whose numbers are representable in the staging array, the setter makes
    exactly one driver call: the upload function of the uniform's kind
    (the [1fv]/[1iv] variant for an array of scalars), the location looked
    up at construction, and arguments that carry exactly the numbers of
    the value (the value itself for a scalar, preceded by [false] for a
    matrix). *)
Theorem setter_uploads_value gl glProgram info isArray k v w :
  kindOf (info_type info) = Some k →
  (properArray info isArray = true → ∃ b, k = KScalar b) →
  wellShaped k (properArray info isArray) isArray v →
  ∃ s w1 w2 args,
    getUniformSetter gl glProgram info isArray w = (Normal s, w1)
    ∧ calls w1 = calls w
    ∧ callSetter s v w1 = (Normal tt, w2)
    ∧ calls w2 =
        calls w ++ [{| call_fn := upload k (properArray info isArray);
                       call_loc := gl_getUniformLocation gl (info_name info);
                       call_args := args |}]
    ∧ carries k (properArray info isArray) v args.
Proof.
  intros Hk Harr Hv.
  destruct (properArray info isArray) eqn:Hproper.
  - destruct (Harr eq_refl) as [b ->].
    unfold properArray in Hproper.
    apply andb_true_iff in Hproper as [Hsize ->]. apply Z.ltb_lt in Hsize.
    rewrite (getUniformSetter_array _ _ _ _ _ Hk Hsize).
    destruct Hv as [(elems & conv & ->) Hrep].
    eexists _, _, _, _. split_and!; [done|done|apply callSetter_array|reflexivity|].
    simpl. eexists _, _. split_and!; [done|apply ta_type_of_numbers|].
    by apply representable_numbers.
  - rewrite (getUniformSetter_plain _ _ _ _ _ _ Hk Hproper).
    destruct k as [b|b d|d]; simpl in Hv.
    + eexists _, _, _, _. split_and!; [done|done|reflexivity|reflexivity|].
      by simpl.
    + destruct Hv as ((elems & conv & ->) & Hco & Hrep & Hlen).
      destruct isArray.
      * eexists _, _, _, _.
        split_and!; [done|done|apply callSetter_array|reflexivity|].
        simpl. eexists _, _. split_and!; [done|apply ta_type_of_numbers|].
        by apply representable_numbers.
      * pose proof (flatten_coherent _ _ Hco Hrep) as Hflat.
        eexists _, _, _, _. split_and!; [done|done|..].
        { apply callSetter_vector.
          - simpl. apply list_lookup_middle. done.
          - rewrite Hflat, ta_length_zeros. by apply Hlen. }
        { reflexivity. }
        unfold carries. rewrite ta_type_zeros, Hflat.
        eexists _, _. split_and!; [done|apply ta_type_of_numbers|].
        by apply representable_numbers.
    + destruct Hv as ((elems & r & ->) & Hco & Hrep).
      eexists _, _, _, _. split_and!; [done|done|reflexivity|reflexivity|].
      simpl. eexists. split; [done|].
      simpl in Hco. rewrite Hco. by apply (representable_fround Float32Array).
Qed.

Lemma setter_uploads_value_witness :
  ∃ s w1 w2 args,
    getUniformSetter (sampleGL [colorInfo] []) 2%positive colorInfo false
      emptyWorld = (Normal s, w1)
    ∧ calls w1 = []
    ∧ callSetter s (mathObject [1; 0.5; 0.25]%float) w1 = (Normal tt, w2)
    ∧ calls w2 =
        [{| call_fn := uniform3fv; call_loc := Some 0; call_args := args |}]
    ∧ carries (KVector Floating D3) false
        (mathObject [1; 0.5; 0.25]%float) args.
Proof.
  apply (setter_uploads_value (sampleGL [colorInfo] []) 2%positive colorInfo
           false (KVector Floating D3) (mathObject [1; 0.5; 0.25]%float)
           emptyWorld).
  - reflexivity.
  - intros H. vm_compute in H. discriminate H.
  - split; [by eexists _, _|].
    split; [reflexivity|].
    split; [|reflexivity].
    repeat constructor; vm_compute; reflexivity.
Defined.

(** C1, on the code: [lights[0]] is an active uniform of the supported
    type [FLOAT_VEC3], reported with four elements. The constructor passes
    [isArray = true] for it, and the first [switch] of [getUniformSetter]
    throws the unknown-type error instead of returning a setter. The rest
    of the function is written for such arrays: the second [switch] keeps
    the constructor [Float32Array] for them, and reported with a single
    element the same uniform gets the array closure for [uniform3fv]. *)
Theorem vector_array_has_no_setter :
  kindOf (info_type lightsInfo) = Some (KVector Floating D3)
  ∧ isArrayOf lightsInfo = true
  ∧ getUniformSetter (sampleGL [lightsInfo] []) 2%positive lightsInfo true
      emptyWorld
    = (Throw (Error "Uniform: Unknown GLSL type"), emptyWorld)
  ∧ getUniformSetter (sampleGL [lightsInfo] []) 2%positive
      (uniform "lights[0]" FLOAT_VEC3 1) true emptyWorld
    = (Normal (ArraySetter uniform3fv (Some 0) (TACtor Float32Array)),
       emptyWorld).
Proof. split_and!; reflexivity. Qed.

(** ** Integer uniforms and [Uint16Array] *)







(** ** The scratch buffer of a vector setter *)





(** ** Matrix setters *)

(** The matrix closure passes [false] and the result of the value's
    [toFloat32Array()]. *)
Lemma matrix_setter_passes_false f loc elems r w :
  callSetter (MatrixSetter f loc) (VArray elems (Some r)) w =
    (Normal tt,
     {| heap := heap w;
        calls := calls w ++ [{| call_fn := f; call_loc := loc;
                                call_args := [AValue (VBool false);
                                              AFloat32 r] |}] |}).
Proof. reflexivity. Qed.

(** Without the method the matrix closure throws and the driver is not
    called, whereas the vector closure takes the value as it is. *)
Lemma matrix_setter_rejects_flat_value f loc elems w :
  callSetter (MatrixSetter f loc) (VArray elems None) w = (Throw TypeError, w).
Proof. reflexivity. Qed.

(** C7, on the code: for the matrix uniform [uMVMatrix], a math object is
    uploaded with the transposition flag [false]; a flat array of the same
    sixteen numbers is not treated as already flat: the setter throws a
    [TypeError] and issues no driver call. *)
Theorem matrix_setter_requires_conversion :
  ∃ s,
    getUniformSetter (sampleGL [matrixInfo] []) 2%positive matrixInfo false
      emptyWorld = (Normal s, emptyWorld)
    ∧ callSetter s (mathObject identity4) emptyWorld
      = (Normal tt,
         {| heap := [];
            calls := [{| call_fn := uniformMatrix4fv; call_loc := Some 0;
                         call_args := [AValue (VBool false);
                                       AFloat32 (fround <$> identity4)] |}]
         |})
    ∧ callSetter s (plainArray identity4) emptyWorld
      = (Throw TypeError, emptyWorld).
Proof. eexists. split_and!; reflexivity. Qed.

(** ** Unknown type tags *)

(** C2, on the code: [count] has the type tag [UNSIGNED_INT], which is in
    no case of either [switch]. The constructor aborts, but with the
    [TypeError] of [glFunction.bind] and not with the unknown-type error;
    the same tag on an array of more than one element does raise it. *)
Theorem unknown_scalar_type_raises_TypeError :
  kindOf (info_type countInfo) = None
  ∧ newProgram (sampleGL [countInfo] []) "vs" "fs" emptyWorld
    = (Throw TypeError, emptyWorld)
  ∧ newProgram (sampleGL [uniform "counts[0]" UNSIGNED_INT 4] []) "vs" "fs"
      emptyWorld
    = (Throw (Error "Uniform: Unknown GLSL type"), emptyWorld).
Proof. split_and!; reflexivity. Qed.

(** ** Registration of uniforms by the constructor *)

Lemma get_after_base base suffix n :
  String.get (String.length base + n) (base +:+ suffix) = String.get n suffix.
Proof. induction base as [|c base IH]; simpl; done. Qed.

Lemma substring_base base suffix :
  substring 0 (String.length base) (base +:+ suffix) = base.
Proof.
  induction base as [|c base IH]; simpl; [by destruct suffix|by rewrite IH].
Qed.

Lemma length_append base suffix :
  String.length (base +:+ suffix)
  = (String.length base + String.length suffix)%nat.
Proof. induction base as [|c base IH]; simpl; [done|by rewrite IH]. Qed.

(** [colors[0]] is registered as [colors]. *)
Lemma cleanName_indexed base : cleanName (base +:+ "[0]") = base.
Proof.
  unfold cleanName. rewrite length_append. simpl String.length.
  replace (String.length base + 3 - 1)%nat with (String.length base + 2)%nat
    by lia.
  replace (String.length base + 3 - 3)%nat with (String.length base) by lia.
  rewrite get_after_base. simpl String.get.
  rewrite bool_decide_eq_true_2 by done. apply substring_base.
Qed.

Lemma cleanName_plain name :
  String.get (String.length name - 1)%nat name ≠ Some "]"%char →
  cleanName name = name.
Proof. intros H. unfold cleanName. by rewrite bool_decide_eq_false_2. Qed.

Lemma isArrayOf_indexed info base :
  info_name info = base +:+ "[0]" → keyOf info = base ∧ isArrayOf info = true.
Proof.
  intros Hname. unfold isArrayOf, keyOf. rewrite Hname, cleanName_indexed.
  split; [done|]. apply negb_true_iff, String.eqb_neq. intros Heq.
  apply (f_equal String.length) in Heq. rewrite length_append in Heq.
  simpl in Heq. lia.
Qed.

Lemma isArrayOf_plain info :
  String.get (String.length (info_name info) - 1)%nat (info_name info)
    ≠ Some "]"%char →
  keyOf info = info_name info ∧ isArrayOf info = false.
Proof.
  intros H. unfold isArrayOf, keyOf. rewrite (cleanName_plain _ H).
  split; [done|]. by rewrite String.eqb_refl.
Qed.

Lemma assignUniform_inv name s us proto w r w' :
  assignUniform name s us proto w = (r, w') →
  us !! "__proto__" = None →
  w' = w
  ∧ match r with
    | Throw e =>
        e = TypeError ∧ is_Some proto
        ∧ name ∈ ["length"; "name"; "arguments"; "caller"]
    | Normal (us1, proto1) =>
        if String.eqb name "__proto__" then us1 = us ∧ proto1 = Some s
        else us1 = <[name := s]> us ∧ proto1 = proto
    end.
Proof.
  unfold assignUniform. intros Hrun Hinv.
  case_bool_decide as Hown.
  - injection Hrun as <- <-. split; [done|].
    destruct (String.eqb_spec name "__proto__") as [->|_]; [|done].
    rewrite Hinv in Hown. by destruct Hown.
  - destruct (String.eqb name "__proto__");
      [injection Hrun as <- <-; by split|].
    destruct proto as [p|]; [|injection Hrun as <- <-; by split].
    case_bool_decide as Hkey; injection Hrun as <- <-; by split.
Qed.

Lemma assignUniform_keeps_invariant name s us proto w us1 proto1 w' :
  assignUniform name s us proto w = (Normal (us1, proto1), w') →
  us !! "__proto__" = None →
  us1 !! "__proto__" = None.
Proof.
  intros Hrun Hinv.
  destruct (assignUniform_inv _ _ _ _ _ _ _ Hrun Hinv) as [_ Hr].
  destruct (String.eqb_spec name "__proto__") as [->|Hne].
  - by destruct Hr as [-> _].
  - destruct Hr as [-> _]. by rewrite lookup_insert_ne.
Qed.

Lemma uniformLoop_cons gl glProgram info rest us proto w :
  uniformLoop gl glProgram (info :: rest) us proto w =
    match getUniformSetter gl glProgram info (isArrayOf info) w with
    | (Normal s, w1) =>
        match assignUniform (keyOf info) s us proto w1 with
        | (Normal next, w2) => uniformLoop gl glProgram rest next.1 next.2 w2
        | (Throw e, w2) => (Throw e, w2)
        end
    | (Throw e, w1) => (Throw e, w1)
    end.
Proof.
  simpl. unfold mbind at 1, JS_bind, isArrayOf, keyOf.
  destruct (getUniformSetter _ _ _ _ _) as [[s|e] w1]; [|done].
  unfold mbind, JS_bind.
  by destruct (assignUniform _ _ _ _ _) as [[[us1 proto1]|e] w2].
Qed.

(** One step of the loop, for a table without an own key [__proto__]. *)
Lemma uniformLoop_step gl glProgram info rest us proto w r w' :
  uniformLoop gl glProgram (info :: rest) us proto w = (r, w') →
  us !! "__proto__" = None →
  (∃ e, getUniformSetter gl glProgram info (isArrayOf info) w = (Throw e, w')
        ∧ r = Throw e)
  ∨ ∃ s w1,
      getUniformSetter gl glProgram info (isArrayOf info) w = (Normal s, w1)
      ∧ ((assignUniform (keyOf info) s us proto w1 = (Throw TypeError, w1)
          ∧ is_Some proto
          ∧ keyOf info ∈ ["length"; "name"; "arguments"; "caller"]
          ∧ r = Throw TypeError ∧ w' = w1)
         ∨ ∃ us1 proto1,
             assignUniform (keyOf info) s us proto w1
             = (Normal (us1, proto1), w1)
             ∧ us1 !! "__proto__" = None
             ∧ (if String.eqb (keyOf info) "__proto__"
                then us1 = us ∧ proto1 = Some s
                else us1 = <[keyOf info := s]> us ∧ proto1 = proto)
             ∧ uniformLoop gl glProgram rest us1 proto1 w1 = (r, w')).
Proof.
  rewrite uniformLoop_cons. intros Hrun Hinv.
  destruct (getUniformSetter _ _ _ _ _) as [[s|e] w1] eqn:Hset;
    [|injection Hrun as <- <-; left; by exists e].
  right. exists s, w1. split; [done|].
  destruct (assignUniform _ _ _ _ _) as [[[us1 proto1]|e] w2] eqn:Hassign.
  - destruct (assignUniform_inv _ _ _ _ _ _ _ Hassign Hinv) as [-> Hr].
    right. exists us1, proto1. split_and!; [done| |done|done].
    by eapply assignUniform_keeps_invariant.
  - destruct (assignUniform_inv _ _ _ _ _ _ _ Hassign Hinv)
      as [-> (-> & Hp & Hkey)].
    injection Hrun as <- <-. by left.
Qed.

(** Reading a key yields a given closure exactly when the uniform is
    registered under it. *)
Lemma getMember_registered us proto key s :
  us !! "__proto__" = None →
  getMember us proto key = Normal (Some (Closure s)) ↔ registered us proto key s.
Proof.
  intros Hinv. unfold getMember, registered.
  destruct (String.eqb_spec key "__proto__") as [->|Hne].
  - rewrite Hinv. destruct proto as [p|]; simpl; [|done].
    split; [by intros [= ->]|by intros [= ->]].
  - destruct (us !! key) as [s'|]; [split; by intros [= ->]|].
    split; [|done].
    destruct proto as [p|]; repeat case_bool_decide; try done;
      by destruct (inherited key).
Qed.

(** The loop never creates an own key [__proto__]. *)
Lemma uniformLoop_invariant gl glProgram infos us proto w us' proto' w' :
  uniformLoop gl glProgram infos us proto w = (Normal (us', proto'), w') →
  us !! "__proto__" = None →
  us' !! "__proto__" = None.
Proof.
  revert us proto w.
  induction infos as [|info rest IH]; intros us proto w Hrun Hinv.
  - by injection Hrun as <- _ _.
  - destruct (uniformLoop_step _ _ _ _ _ _ _ _ _ Hrun Hinv)
      as [(e & _ & [=])|(s & w1 & _ & [(_ & _ & _ & [=] & _)|Hnext])].
    destruct Hnext as (us1 & proto1 & _ & Hinv1 & _ & Hrest).
    by apply (IH _ _ _ Hrest).
Qed.

(** The loop leaves the uniforms registered under other keys alone. *)
Lemma uniformLoop_keeps gl glProgram infos us proto w us' proto' w' key s :
  uniformLoop gl glProgram infos us proto w = (Normal (us', proto'), w') →
  us !! "__proto__" = None →
  key ∉ keyOf <$> infos →
  registered us proto key s →
  registered us' proto' key s.
Proof.
  revert us proto w.
  induction infos as [|info rest IH]; intros us proto w Hrun Hinv Hkey Hreg.
  - by injection Hrun as <- <- _.
  - rewrite fmap_cons in Hkey. apply not_elem_of_cons in Hkey as [Hne Hkey].
    destruct (uniformLoop_step _ _ _ _ _ _ _ _ _ Hrun Hinv)
      as [(e & _ & [=])|(s1 & w1 & _ & [(_ & _ & _ & [=] & _)|Hnext])].
    destruct Hnext as (us1 & proto1 & _ & Hinv1 & Hstep & Hrest).
    apply (IH _ _ _ Hrest Hinv1 Hkey).
    unfold registered in *.
    destruct (String.eqb_spec (keyOf info) "__proto__") as [Hproto|Hother].
    + destruct Hstep as [-> ->].
      destruct (String.eqb_spec key "__proto__") as [->|_]; [|done].
      by rewrite Hproto in Hne.
    + destruct Hstep as [-> ->].
      destruct (String.eqb key "__proto__"); [done|].
      by rewrite lookup_insert_ne.
Qed.

(** When the loop completes, every uniform is registered under its key
    with the closure that [getUniformSetter] returned for it. *)
Lemma uniformLoop_registers gl glProgram infos us proto w us' proto' w' info :
  uniformLoop gl glProgram infos us proto w = (Normal (us', proto'), w') →
  us !! "__proto__" = None →
  NoDup (keyOf <$> infos) →
  info ∈ infos →
  ∃ s w1 w2,
    getUniformSetter gl glProgram info (isArrayOf info) w1 = (Normal s, w2)
    ∧ registered us' proto' (keyOf info) s.
Proof.
  revert us proto w.
  induction infos as [|first rest IH]; intros us proto w Hrun Hinv Hnodup Hin.
  - by apply elem_of_nil in Hin.
  - rewrite fmap_cons in Hnodup. apply NoDup_cons in Hnodup as [Hfresh Hnodup].
    destruct (uniformLoop_step _ _ _ _ _ _ _ _ _ Hrun Hinv)
      as [(e & _ & [=])|(s & w1 & Hset & [(_ & _ & _ & [=] & _)|Hnext])].
    destruct Hnext as (us1 & proto1 & _ & Hinv1 & Hstep & Hrest).
    apply elem_of_cons in Hin as [->|Hin].
    + exists s, w, w1. split; [done|].
      apply (uniformLoop_keeps _ _ _ _ _ _ _ _ _ _ _ Hrest Hinv1 Hfresh).
      unfold registered.
      destruct (String.eqb (keyOf first) "__proto__");
        destruct Hstep as [-> ->]; [done|apply lookup_insert_eq].
    + by apply (IH _ _ _ Hrest).
Qed.

(** When the loop completes, [getUniformSetter] has returned a closure for
    every uniform, whatever the keys are. *)
Lemma uniformLoop_all_built gl glProgram infos us proto w r w' info :
  uniformLoop gl glProgram infos us proto w = (Normal r, w') →
  us !! "__proto__" = None →
  info ∈ infos →
  ∃ s w1 w2,
    getUniformSetter gl glProgram info (isArrayOf info) w1 = (Normal s, w2).
Proof.
  revert us proto w.
  induction infos as [|first rest IH]; intros us proto w Hrun Hinv Hin.
  - by apply elem_of_nil in Hin.
  - destruct (uniformLoop_step _ _ _ _ _ _ _ _ _ Hrun Hinv)
      as [(e & _ & [=])|(s & w1 & Hset & [(_ & _ & _ & [=] & _)|Hnext])].
    destruct Hnext as (us1 & proto1 & _ & Hinv1 & _ & Hrest).
    apply elem_of_cons in Hin as [->|Hin]; [by eauto|].
    by apply (IH _ _ _ Hrest).
Qed.

Lemma createProgram_inv gl vs fs w h w' :
  createProgram gl vs fs w = (Normal h, w') → h = gl_createProgram gl ∧ w' = w.
Proof.
  unfold createProgram, createShader, mbind, JS_bind, mret, JS_ret, throw, lift.
  destruct (gl_createShader gl VERTEX_SHADER); [|done].
  destruct (gl_compileStatus gl VERTEX_SHADER vs); [|done].
  destruct (gl_createShader gl FRAGMENT_SHADER); [|done].
  destruct (gl_compileStatus gl FRAGMENT_SHADER fs); [|done].
  destruct (gl_createProgram gl) as [h'|].
  - destruct (gl_linkStatus gl vs fs); [|done]. by intros [= <- <-].
  - destruct (gl_nullProgram gl) as [[]|e]; [|done..]. by intros [= <- <-].
Qed.

Lemma createProgram_world gl vs fs w r w' :
  createProgram gl vs fs w = (r, w') → w' = w.
Proof.
  unfold createProgram, createShader, mbind, JS_bind, mret, JS_ret, throw, lift.
  destruct (gl_createShader gl VERTEX_SHADER); [|by intros [= _ <-]].
  destruct (gl_compileStatus gl VERTEX_SHADER vs); [|by intros [= _ <-]].
  destruct (gl_createShader gl FRAGMENT_SHADER); [|by intros [= _ <-]].
  destruct (gl_compileStatus gl FRAGMENT_SHADER fs); [|by intros [= _ <-]].
  destruct (gl_createProgram gl) as [h'|].
  - destruct (gl_linkStatus gl vs fs); by intros [= _ <-].
  - destruct (gl_nullProgram gl) as [[]|e]; by intros [= _ <-].
Qed.

Lemma newProgram_inv gl vs fs w prog w' :
  newProgram gl vs fs w = (Normal prog, w') →
  gl_createProgram gl = Some (program prog)
  ∧ uniformLoop gl (program prog) (gl_getActiveUniforms gl) ∅ None w
    = (Normal (uniforms prog, uniformsPrototype prog), w')
  ∧ attributes prog = attributeLoop gl (gl_getActiveAttribs gl) ∅
  ∧ attributeEnabled prog = ∅.
Proof.
  unfold newProgram. unfold mbind at 1, JS_bind.
  destruct (createProgram gl vs fs w) as [[h|e] w1] eqn:Hcreate; [|done].
  destruct (createProgram_inv _ _ _ _ _ _ Hcreate) as [-> ->].
  destruct (gl_createProgram gl) as [h|]; [|done].
  unfold mbind, JS_bind.
  destruct (uniformLoop _ _ _ _ _ _) as [[[us proto]|e] w2] eqn:Hloop; [|done].
  by intros [= <- <-].
Qed.

Lemma newProgram_uniforms gl vs fs w prog w' :
  newProgram gl vs fs w = (Normal prog, w') →
  ∃ glProgram w1,
    uniformLoop gl glProgram (gl_getActiveUniforms gl) ∅ None w1
    = (Normal (uniforms prog, uniformsPrototype prog), w').
Proof.
  intros Hnew. destruct (newProgram_inv _ _ _ _ _ _ Hnew) as (_ & Hloop & _).
  by eauto.
Qed.

(** What the constructor leaves in [uniforms]: no own key [__proto__]. *)
Lemma newProgram_invariant gl vs fs w prog w' :
  newProgram gl vs fs w = (Normal prog, w') →
  uniforms prog !! "__proto__" = None.
Proof.
  intros Hnew. destruct (newProgram_inv _ _ _ _ _ _ Hnew) as (_ & Hloop & _).
  by apply (uniformLoop_invariant _ _ _ _ _ _ _ _ _ Hloop).
Qed.

(** When the constructor completes and the driver reports uniforms with
    distinct keys, reading [uniforms[key]] yields, for every active
    uniform, the closure that [getUniformSetter] returned for it. *)
Lemma newProgram_registers gl vs fs w prog w' info :
  newProgram gl vs fs w = (Normal prog, w') →
  NoDup (keyOf <$> gl_getActiveUniforms gl) →
  info ∈ gl_getActiveUniforms gl →
  ∃ s w1 w2,
    getUniformSetter gl (program prog) info (isArrayOf info) w1
    = (Normal s, w2)
    ∧ getMember (uniforms prog) (uniformsPrototype prog) (keyOf info)
      = Normal (Some (Closure s)).
Proof.
  intros Hnew Hnodup Hin.
  destruct (newProgram_inv _ _ _ _ _ _ Hnew) as (_ & Hloop & _).
  destruct (uniformLoop_registers _ _ _ _ _ _ _ _ _ _ Hloop
              (lookup_empty _) Hnodup Hin) as (s & w1 & w2 & Hset & Hreg).
  exists s, w1, w2. split; [done|].
  apply getMember_registered; [|done].
  by apply (newProgram_invariant _ _ _ _ _ _ Hnew).
Qed.

(** When the constructor completes and the driver reports uniforms with
    distinct keys: reading [uniforms[base]] for a uniform reported as
    [base[0]] with more than one element yields the array closure for
    [uniform1fv] or [uniform1iv], and the uniform is of a scalar type;
    reading [uniforms[name]] for a uniform whose reported name does not end
    in a bracket yields the scalar, vector or matrix closure of its type.
    (For an array of more than one vector or matrix the constructor does
    not complete.) *)
Theorem uniforms_registered_by_name gl vs fs w prog w' info :
  newProgram gl vs fs w = (Normal prog, w') →
  NoDup (keyOf <$> gl_getActiveUniforms gl) →
  info ∈ gl_getActiveUniforms gl →
  (∀ base, info_name info = base +:+ "[0]" → 1 < info_size info →
     ∃ b, kindOf (info_type info) = Some (KScalar b)
          ∧ getMember (uniforms prog) (uniformsPrototype prog) base =
              Normal (Some (Closure
                (ArraySetter (upload (KScalar b) true)
                   (gl_getUniformLocation gl (info_name info))
                   (TACtor (staging b))))))
  ∧ (String.get (String.length (info_name info) - 1)%nat (info_name info)
       ≠ Some "]"%char →
     ∃ k s, kindOf (info_type info) = Some k
            ∧ getMember (uniforms prog) (uniformsPrototype prog)
                (info_name info) = Normal (Some (Closure s))
            ∧ plainVariant k (gl_getUniformLocation gl (info_name info)) s).
Proof.
  intros Hnew Hnodup Hin.
  destruct (newProgram_registers _ _ _ _ _ _ _ Hnew Hnodup Hin)
    as (s & w1 & w2 & Hset & Hreg).
  destruct (kindOf (info_type info)) as [k|] eqn:Hk;
    [|by rewrite (getUniformSetter_unknown _ _ _ _ _ Hk) in Hset].
  split.
  - intros base Hname Hsize.
    destruct (isArrayOf_indexed _ _ Hname) as [Hkey Harr].
    rewrite Hkey in Hreg. rewrite Harr in Hset.
    rewrite (getUniformSetter_array _ _ _ _ _ Hk Hsize) in Hset.
    destruct k as [b| |]; [|done..].
    injection Hset as <- _. by exists b.
  - intros Hplain.
    destruct (isArrayOf_plain _ Hplain) as [Hkey Harr].
    rewrite Hkey in Hreg. rewrite Harr in Hset.
    rewrite (getUniformSetter_plain _ _ _ _ _ _ Hk) in Hset
      by (unfold properArray; apply andb_false_r).
    injection Hset as <- _. eexists k, _.
    split_and!; [done|exact Hreg|]. destruct k; simpl; eauto.
Qed.

Lemma sampleProgram_built :
  newProgram (sampleGL [weightsInfo; colorInfo] []) "vs" "fs" emptyWorld
  = (Normal sampleProgram, sampleWorld).
Proof. vm_compute. reflexivity. Qed.

Lemma uniforms_registered_by_name_witness :
  (∀ base, info_name weightsInfo = base +:+ "[0]" → 1 < info_size weightsInfo →
     ∃ b, kindOf (info_type weightsInfo) = Some (KScalar b)
          ∧ getMember (uniforms sampleProgram)
              (uniformsPrototype sampleProgram) base =
              Normal (Some (Closure
                (ArraySetter (upload (KScalar b) true)
                   (gl_getUniformLocation
                      (sampleGL [weightsInfo; colorInfo] [])
                      (info_name weightsInfo))
                   (TACtor (staging b))))))
  ∧ (String.get (String.length (info_name weightsInfo) - 1)%nat
       (info_name weightsInfo) ≠ Some "]"%char →
     ∃ k s, kindOf (info_type weightsInfo) = Some k
            ∧ getMember (uniforms sampleProgram)
                (uniformsPrototype sampleProgram) (info_name weightsInfo)
              = Normal (Some (Closure s))
            ∧ plainVariant k
                (gl_getUniformLocation (sampleGL [weightsInfo; colorInfo] [])
                   (info_name weightsInfo)) s).
Proof.
  apply (uniforms_registered_by_name (sampleGL [weightsInfo; colorInfo] [])
           "vs" "fs" emptyWorld sampleProgram sampleWorld weightsInfo).
  - vm_compute. reflexivity.
  - apply (bool_decide_unpack _). vm_compute. exact I.
  - apply list_elem_of_here.
Defined.

(** C3, on the code: [colors[0]] is reported with three elements of type
    [FLOAT_VEC4], and the constructor throws the unknown-type error of the
    first [switch] instead of registering a setter under [colors]. The
    second [switch] and the array closure are written for such arrays:
    reported with a single element, the same uniform is registered under
    [colors] with the array closure for [uniform4fv]. *)
Theorem vector_array_is_not_registered :
  info_name colorsInfo = "colors" +:+ "[0]"
  ∧ 1 < info_size colorsInfo
  ∧ kindOf (info_type colorsInfo) = Some (KVector Floating D4)
  ∧ newProgram (sampleGL [colorsInfo] []) "vs" "fs" emptyWorld
    = (Throw (Error "Uniform: Unknown GLSL type"), emptyWorld)
  ∧ ∃ prog,
      newProgram (sampleGL [uniform "colors[0]" FLOAT_VEC4 1] []) "vs" "fs"
        emptyWorld = (Normal prog, emptyWorld)
      ∧ uniforms prog !! "colors"
        = Some (ArraySetter uniform4fv (Some 0) (TACtor Float32Array)).
Proof.
  split_and!; [reflexivity..|]. eexists. split; [vm_compute; reflexivity|].
  reflexivity.
Qed.

(** One active uniform with a type tag outside the table is enough for the
    constructor not to complete: no program is returned. *)
Lemma newProgram_aborts_on_unknown_type gl vs fs w info :
  info ∈ gl_getActiveUniforms gl →
  kindOf (info_type info) = None →
  ∀ prog w', newProgram gl vs fs w ≠ (Normal prog, w').
Proof.
  intros Hin Hk prog w' Hnew.
  destruct (newProgram_uniforms _ _ _ _ _ _ Hnew) as (glProgram & w0 & Hloop).
  destruct (uniformLoop_all_built _ _ _ _ _ _ _ _ _ Hloop (lookup_empty _) Hin)
    as (s & w1 & w2 & Hset).
  by rewrite (getUniformSetter_unknown _ _ _ _ _ Hk) in Hset.
Qed.

(** Nor does it complete when an array of more than one vector or matrix
    is active. *)
Lemma newProgram_rejects_vector_arrays gl vs fs w info base k :
  info ∈ gl_getActiveUniforms gl →
  info_name info = base +:+ "[0]" →
  1 < info_size info →
  kindOf (info_type info) = Some k →
  (∀ b, k ≠ KScalar b) →
  ∀ prog w', newProgram gl vs fs w ≠ (Normal prog, w').
Proof.
  intros Hin Hname Hsize Hk Hvec prog w' Hnew.
  destruct (newProgram_uniforms _ _ _ _ _ _ Hnew) as (glProgram & w0 & Hloop).
  destruct (uniformLoop_all_built _ _ _ _ _ _ _ _ _ Hloop (lookup_empty _) Hin)
    as (s & w1 & w2 & Hset).
  destruct (isArrayOf_indexed _ _ Hname) as [_ Harr]. rewrite Harr in Hset.
  rewrite (getUniformSetter_array _ _ _ _ _ Hk Hsize) in Hset.
  destruct k as [b| |]; [by apply (Hvec b)|done..].
Qed.

(** ** [setUniform] and [setUniforms] *)

(** The statement that both methods run for a key. *)
Lemma setUniform_unfold this name value w :
  setUniform this name value w =
    if hasProperty (uniforms this) (uniformsPrototype this) name then
      match getMember (uniforms this) (uniformsPrototype this) name with
      | Normal m =>
          match callMember (uniforms this) (uniformsPrototype this) m value w
          with
          | (Normal _, w1) => (Normal this, w1)
          | (Throw e, w1) => (Throw e, w1)
          end
      | Throw e => (Throw e, w)
      end
    else (Normal this, w).
Proof.
  unfold setUniform, mbind, JS_bind, lift.
  destruct (hasProperty _ _ _); [|done].
  destruct (getMember _ _ _) as [m|e]; [|done].
  by destruct (callMember _ _ m value w) as [[[]|e] w1].
Qed.

Lemma setUniformsLoop_cons this name value rest w :
  setUniformsLoop this ((name, value) :: rest) w =
    match setUniform this name value w with
    | (Normal _, w1) => setUniformsLoop this rest w1
    | (Throw e, w1) => (Throw e, w1)
    end.
Proof.
  rewrite setUniform_unfold. simpl. unfold mbind, JS_bind, lift.
  destruct (hasProperty _ _ _); [|done].
  destruct (getMember _ _ _) as [m|e]; [|done].
  by destruct (callMember _ _ m value w) as [[[]|e] w1].
Qed.

Lemma setUniform_returns_this this name value w p w' :
  setUniform this name value w = (Normal p, w') → p = this.
Proof.
  rewrite setUniform_unfold.
  destruct (hasProperty _ _ _); [|by intros [= <- _]].
  destruct (getMember _ _ _) as [m|e]; [|done].
  destruct (callMember _ _ m value w) as [[[]|e] w1]; [|done].
  by intros [= <- _].
Qed.





(** A name without a setter of its own never reaches the driver and leaves
    the world as it was, even when a prototype answers for it: the call
    returns the program or throws the [TypeError] of a member that cannot
    be called this way. Two names are set aside, because they reach a
    closure all the same: [__proto__], once a uniform of that name has made
    its closure the prototype, is that closure; and [toLocaleString], when
    a uniform is named [toString], calls that uniform's closure without an
    argument. *)
Theorem unregistered_name_reaches_no_driver this name value w :
  uniforms this !! name = None →
  (∀ p, name = "__proto__" → uniformsPrototype this = Some p →
        setUniform this name value w =
          match callSetter p value w with
          | (Normal _, w1) => (Normal this, w1)
          | (Throw e, w1) => (Throw e, w1)
          end)
  ∧ (∀ s, name = "toLocaleString" → uniforms this !! "toString" = Some s →
          setUniform this name value w =
            match callSetterUndefined s w with
            | (Normal _, w1) => (Normal this, w1)
            | (Throw e, w1) => (Throw e, w1)
            end)
  ∧ ((name = "__proto__" → uniformsPrototype this = None) →
     (name = "toLocaleString" → uniforms this !! "toString" = None) →
     setUniform this name value w = (Normal this, w)
     ∨ setUniform this name value w = (Throw TypeError, w)).
Proof.
  intros Hnone. rewrite setUniform_unfold. split_and!.
  - intros p -> Hp. unfold hasProperty, getMember. rewrite Hnone, Hp.
    reflexivity.
  - intros s -> Hs. unfold hasProperty, getMember, callMember, invokeToString.
    rewrite Hnone, Hs. by destruct (uniformsPrototype this).
  - intros Hproto Hlocale.
    destruct (hasProperty _ _ _); [|by left].
    unfold getMember. rewrite Hnone.
    destruct (uniformsPrototype this) as [p|] eqn:Hp.
    + case_bool_decide; [by right|].
      case_bool_decide; [by right|].
      case_bool_decide.
      { simpl. destruct (String.eqb name "constructor"); [by left|by right]. }
      destruct (String.eqb_spec name "__proto__") as [Heq|_];
        [by specialize (Hproto Heq)|].
      destruct (inherited name); [|by right]. simpl.
      case_bool_decide; [by right|].
      destruct (String.eqb_spec name "toLocaleString") as [Heq|_]; [|by left].
      unfold invokeToString. rewrite (Hlocale Heq). by right.
    + destruct (String.eqb name "__proto__"); [by right|].
      destruct (inherited name); [|by right]. simpl.
      case_bool_decide; [by right|].
      destruct (String.eqb_spec name "toLocaleString") as [Heq|_]; [|by left].
      unfold invokeToString. rewrite (Hlocale Heq). by left.
Qed.

(** The two names set aside do reach the driver. A uniform named
    [__proto__] is no key of [uniforms]; its closure is the prototype of
    the object, and [setUniform] calls it through the accessor. A uniform
    named [toString] is called without an argument when [toLocaleString]
    is set. *)
Lemma inherited_names_reach_closures :
  (∃ prog,
     newProgram (sampleGL [uniform "__proto__" FLOAT 1] []) "vs" "fs"
       emptyWorld = (Normal prog, emptyWorld)
     ∧ uniforms prog = ∅
     ∧ uniformsPrototype prog = Some (PrimitiveSetter uniform1f (Some 0))
     ∧ setUniform prog "__proto__" (VNum 1) emptyWorld
       = (Normal prog,
          {| heap := [];
             calls := [{| call_fn := uniform1f; call_loc := Some 0;
                          call_args := [AValue (VNum 1)] |}] |}))
  ∧ (∃ prog,
       newProgram (sampleGL [uniform "toString" FLOAT 1] []) "vs" "fs"
         emptyWorld = (Normal prog, emptyWorld)
       ∧ uniforms prog !! "toLocaleString" = None
       ∧ setUniform prog "toLocaleString" (VNum 1) emptyWorld
         = (Normal prog,
            {| heap := [];
               calls := [{| call_fn := uniform1f; call_loc := Some 0;
                            call_args := [AUndefined] |}] |})).
Proof.
  split; eexists; (split; [vm_compute; reflexivity|]);
    split_and!; reflexivity.
Qed.




(** ** The pattern of [#include] *)

Lemma stripPrefix_sound p s r : stripPrefix p s = Some r → s = p +:+ r.
Proof.
  revert s. induction p as [|a p IH]; intros s; simpl.
  - by intros [= <-].
  - destruct s as [|b s]; [done|].
    case_bool_decide as Hab; [|done]. intros H. subst b.
    by rewrite (IH _ H).
Qed.

Lemma stripPrefix_complete p r : stripPrefix p (p +:+ r) = Some r.
Proof.
  induction p as [|a p IH]; simpl; [by destruct r|].
  by rewrite bool_decide_eq_true_2.
Qed.

Lemma untilQuote_sound s captured after :
  untilQuote s = Some (captured, after) →
  s = captured +:+ String dquote after
  ∧ ∀ c, In c (list_ascii_of_string captured) → isLineTerminator c = false.
Proof.
  revert captured. induction s as [|c s IH]; intros captured; simpl; [done|].
  case_bool_decide as Hq.
  - intros [= <- <-]. subst c. split; [done|]. by intros c [].
  - destruct (isLineTerminator c) eqn:Hc; [done|].
    destruct (untilQuote s) as [[captured' after']|]; [|done].
    intros [= <- <-]. destruct (IH _ eq_refl) as [-> Hall].
    split; [done|]. intros c' [<-|Hin]; [done|by apply Hall].
Qed.

Lemma untilQuote_complete path after :
  (∀ c, In c (list_ascii_of_string path) → isLineTerminator c = false) →
  is_Some (untilQuote (path +:+ String dquote after)).
Proof.
  induction path as [|c path IH]; intros Hall; simpl.
  - done.
  - case_bool_decide; [done|].
    rewrite (Hall c) by (by left).
    destruct IH as [[captured after'] ->]; [|done].
    intros c' Hin. apply Hall. by right.
Qed.

Lemma matchInclude_sound source before path after :
  matchInclude source = Some (before, path, after) →
  source = before +:+ includeKeyword +:+ path +:+ String dquote after
  ∧ ∀ c, In c (list_ascii_of_string path) → isLineTerminator c = false.
Proof.
  revert before.
  assert (∀ s, matchIncludeHere s = Some (path, after) →
               s = includeKeyword +:+ path +:+ String dquote after
               ∧ ∀ c, In c (list_ascii_of_string path) →
                      isLineTerminator c = false) as Hhere.
  { intros s. unfold matchIncludeHere.
    destruct (stripPrefix includeKeyword s) as [rest|] eqn:Hstrip; [|done].
    intros Hq. apply stripPrefix_sound in Hstrip as ->.
    by apply untilQuote_sound in Hq as [-> Hall]. }
  induction source as [|c source IH]; intros before Hm.
  - by vm_compute in Hm.
  - simpl in Hm.
    destruct (matchIncludeHere (String c source)) as [[captured after']|]
      eqn:Hh.
    + injection Hm as <- <- <-. by apply Hhere.
    + destruct (matchInclude source) as [[[before' captured] after']|]; [|done].
      injection Hm as <- <- <-. destruct (IH _ eq_refl) as [-> Hall].
      done.
Qed.

Lemma matchInclude_unfold source :
  matchInclude source =
    match matchIncludeHere source with
    | Some (captured, after) => Some (EmptyString, captured, after)
    | None =>
        match source with
        | EmptyString => None
        | String c rest =>
            match matchInclude rest with
            | Some (before, captured, after) =>
                Some (String c before, captured, after)
            | None => None
            end
        end
    end.
Proof. by destruct source. Qed.

Lemma matchInclude_complete source :
  hasIncludeDirective source → is_Some (matchInclude source).
Proof.
  intros (before & path & after & -> & Hall).
  assert (is_Some (matchIncludeHere
                     (includeKeyword +:+ path +:+ String dquote after)))
    as [[captured after'] Hhere].
  { unfold matchIncludeHere. rewrite stripPrefix_complete.
    by apply untilQuote_complete. }
  induction before as [|c before IH].
  - change ("" +:+ ?s) with s. by rewrite matchInclude_unfold, Hhere.
  - change (String c before +:+ ?s) with (String c (before +:+ s)).
    rewrite matchInclude_unfold.
    destruct (matchIncludeHere (String c _)) as [[captured' after'']|];
      [done|].
    by destruct IH as [[[b p] a] ->].
Qed.

(** The test of [recursiveLoad] fails exactly on the sources without an
    include directive. *)
Lemma matchInclude_none source :
  matchInclude source = None ↔ ¬ hasIncludeDirective source.
Proof.
  split.
  - intros Hnone Hhas. apply matchInclude_complete in Hhas as [m Hm].
    congruence.
  - intros Hno.
    destruct (matchInclude source) as [[[before path] after]|] eqn:Hm; [|done].
    exfalso. apply Hno. exists before, path, after.
    by apply matchInclude_sound.
Qed.

(** ** [recursiveLoad] *)

(** One step of [recursiveLoad] on a source with a directive whose target
    passes the duplicate test. *)
Lemma recursiveLoad_include fuel gl xhr base source duplist before path after :
  matchInclude source = Some (before, path, after) →
  truthy duplist (getpath base +:+ path) = false →
  recursiveLoad (S fuel) gl xhr base (SText source) duplist =
    let url := getpath base +:+ path in
    match recursiveLoad fuel gl xhr url (xhr url) ∅ with
    | None => None
    | Some (Throw _) => Some (Throw (loadFailed url))
    | Some (Normal replacement) =>
        recursiveLoad fuel gl xhr url
          (SText (rewriteExtensions gl
                    (before +:+ replacementText replacement +:+ after)))
          (({[url]} ∪ duplist) ∖ {[url]})
    end.
Proof.
  intros Hm Hdup. simpl. rewrite Hm, Hdup.
  by destruct (recursiveLoad fuel gl xhr _ (xhr _) ∅) as [[r|e]|].
Qed.

(** The set of paths in flight is empty again when the call goes on with
    the rest of the source, and the nested call starts from an empty set:
    no test ever sees a path that is being resolved. *)
Lemma duplist_emptied (url : string) :
  ({[url]} ∪ ∅) ∖ {[url]} = (∅ : gset string).
Proof. rewrite union_empty_r_L. apply difference_diag_L. Qed.

(** No call of [recursiveLoad] resolves to a text. *)
Lemma recursiveLoad_resolves_undefined fuel gl xhr base source duplist v :
  recursiveLoad fuel gl xhr base source duplist = Some (Normal v) →
  v = Undefined.
Proof.
  revert base source duplist.
  induction fuel as [|fuel IH]; intros base source duplist; simpl; [done|].
  destruct source as [text|]; [|done].
  destruct (matchInclude text) as [[[before path] after]|]; [|by intros [= <-]].
  destruct (truthy duplist _); [done|].
  destruct (recursiveLoad fuel gl xhr _ (xhr _) ∅) as [[r|e]|]; [|done..].
  apply IH.
Qed.

(** A call of [recursiveLoad] is rejected with the [TypeError] of
    [source.match] or with a load failure, never with an error that names
    a recursive include. *)
Lemma recursiveLoad_rejections fuel gl xhr base source duplist e :
  recursiveLoad fuel gl xhr base source duplist = Some (Throw e) →
  e = TypeError ∨ ∃ url, e = loadFailed url.
Proof.
  revert base source duplist.
  induction fuel as [|fuel IH]; intros base source duplist; simpl; [done|].
  destruct source as [text|]; [|intros [= <-]; by left].
  destruct (matchInclude text) as [[[before path] after]|]; [|done].
  destruct (truthy duplist _); [intros [= <-]; right; by eexists|].
  destruct (recursiveLoad fuel gl xhr _ (xhr _) ∅) as [[r|e']|]; [| |done].
  - apply IH.
  - intros [= <-]. right. by eexists.
Qed.

(** Started with an empty [duplist], as every caller does, [recursiveLoad]
    never uses it: it is the function without the parameter. *)
Lemma recursiveLoad_ignores_duplist fuel gl xhr base source :
  recursiveLoad fuel gl xhr base source ∅
  = loadWithoutDuplist fuel gl xhr base source.
Proof.
  revert base source. induction fuel as [|fuel IH]; intros base source; [done|].
  simpl. destruct source as [text|]; [|done].
  destruct (matchInclude text) as [[[before path] after]|]; [|done].
  unfold truthy. rewrite bool_decide_eq_false_2 by apply not_elem_of_empty.
  simpl. destruct (inherited _); [done|].
  rewrite IH.
  destruct (loadWithoutDuplist fuel gl xhr _ (xhr _)) as [[r|e]|]; [|done..].
  by rewrite duplist_emptied, IH.
Qed.

(** ** The pattern of [HAS_EXTENSION] *)

Lemma extension_char_is_no_space c :
  isExtensionChar c = true → isSpace c = false.
Proof. destruct c as [[] [] [] [] [] [] [] []]; vm_compute; done. Qed.

Lemma takeName_name ext rest :
  (∀ c, In c (list_ascii_of_string ext) → isExtensionChar c = true) →
  takeName (ext +:+ String ")" rest) = (ext, String ")" rest).
Proof.
  induction ext as [|c ext IH]; intros Hall; [done|].
  change (String c ext +:+ ?r) with (String c (ext +:+ r)). simpl takeName.
  rewrite (Hall c) by (by left). rewrite IH; [done|].
  intros c' Hin. apply Hall. by right.
Qed.

Lemma matchHasExtension_call ext rest :
  extensionName ext →
  matchHasExtension (" HAS_EXTENSION(" +:+ ext +:+ String ")" rest)
  = Some (ext, rest).
Proof.
  intros [Hne Hall]. simpl. change ("" +:+ ?x) with x.
  assert (skipSpaces (ext +:+ String ")" rest) = ext +:+ String ")" rest)
    as ->.
  { destruct ext as [|c ext]; [done|].
    change (String c ext +:+ ?r) with (String c (ext +:+ r)). simpl.
    by rewrite (extension_char_is_no_space c) by (apply Hall; by left). }
  rewrite (takeName_name _ _ Hall).
  rewrite bool_decide_eq_false_2 by done. reflexivity.
Qed.

Lemma rewriteFrom_skip gl text rest :
  rewriteFrom gl (String.length text) (text +:+ rest) = rewriteFrom gl 0 rest.
Proof.
  induction text as [|c text IH]; [done|].
  change (String c text +:+ ?r) with (String c (text +:+ r)). simpl.
  exact IH.
Qed.

Lemma append_assoc (a b c : string) : (a +:+ b) +:+ c = a +:+ b +:+ c.
Proof.
  induction a as [|x a IH]; [done|].
  change (String x ((a +:+ b) +:+ c) = String x (a +:+ b +:+ c)).
  by f_equal.
Qed.

Lemma call_text ext rest :
  "HAS_EXTENSION(" +:+ ext +:+ String ")" rest
  = ("HAS_EXTENSION(" +:+ ext +:+ ")") +:+ rest.
Proof. by rewrite !append_assoc. Qed.

(** Where the rewriting is applied, a call of the macro with a proper name
    becomes 1 or 0 according to the driver, and the rewriting goes on
    behind it. *)
Lemma rewriteExtensions_call gl ext rest :
  extensionName ext →
  rewriteExtensions gl (" HAS_EXTENSION(" +:+ ext +:+ String ")" rest)
  = (if gl_getExtension gl ext then " 1 " else " 0 ")
    +:+ rewriteExtensions gl rest.
Proof.
  intros Hext. unfold rewriteExtensions.
  pose proof (matchHasExtension_call ext rest Hext) as Hm.
  change (" HAS_EXTENSION(" +:+ ext +:+ String ")" rest)
    with (String " " ("HAS_EXTENSION(" +:+ ext +:+ String ")" rest)) in *.
  cbn [rewriteFrom]. rewrite Hm. f_equal.
  rewrite call_text, length_append, Nat.add_sub.
  apply rewriteFrom_skip.
Qed.

(** C8. A source without an include directive makes [recursiveLoad]
    resolve to [undefined], whatever the extensions of the driver are: the
    text is neither rewritten nor returned. *)
Theorem include_free_source_resolves_undefined
  fuel gl xhr base source duplist :
  ¬ hasIncludeDirective source →
  recursiveLoad (S fuel) gl xhr base (SText source) duplist
  = Some (Normal Undefined).
Proof. intros Hno. simpl. by rewrite (proj2 (matchInclude_none _) Hno). Qed.

Lemma include_free_source_resolves_undefined_witness :
  recursiveLoad 1 (sampleGL [] ["OES_texture_float"]) libraryFiles
    "shaders/main.glsl"
    (SText "void main() { gl_FragColor = vec4(HAS_EXTENSION(FOO)); }") ∅
  = Some (Normal Undefined).
Proof.
  apply (include_free_source_resolves_undefined 0
           (sampleGL [] ["OES_texture_float"]) libraryFiles
           "shaders/main.glsl"
           "void main() { gl_FragColor = vec4(HAS_EXTENSION(FOO)); }" ∅).
  apply matchInclude_none. vm_compute. reflexivity.
Defined.

(** C5, on the code: the macro is rewritten in the working copy of a
    source that has an include directive, but no call hands a source back.
    With [OES_texture_float] available, a source without a directive and a
    source that includes [lib.glsl] both resolve to [undefined], although
    the rewriting itself would give 1. *)
Theorem extension_macro_is_not_emitted :
  let gl := sampleGL [] ["OES_texture_float"] in
  rewriteExtensions gl "#if HAS_EXTENSION(OES_texture_float)" = "#if 1 "
  ∧ (∀ fuel, recursiveLoad (S fuel) gl libraryFiles "main.glsl"
               (SText "#if HAS_EXTENSION(OES_texture_float)") ∅
             = Some (Normal Undefined))
  ∧ (∀ fuel, recursiveLoad (3 + fuel) gl libraryFiles "main.glsl"
               (SText (includeLine "lib.glsl"
                       +:+ " #if HAS_EXTENSION(OES_texture_float)")) ∅
             = Some (Normal Undefined)).
Proof.
  intros gl. split_and!.
  - vm_compute. reflexivity.
  - intros fuel. reflexivity.
  - intros fuel.
    change (3 + fuel)%nat with (S (S (S fuel))).
    erewrite recursiveLoad_include;
      [|vm_compute; reflexivity|vm_compute; reflexivity].
    cbv zeta.
    change (getpath "main.glsl" +:+ "lib.glsl") with "lib.glsl".
    change (libraryFiles "lib.glsl") with (SText "float lib;").
    change (recursiveLoad (S (S fuel)) gl libraryFiles "lib.glsl"
              (SText "float lib;") ∅) with (Some (Normal Undefined)).
    cbv iota beta.
    match goal with
    | |- recursiveLoad _ _ _ _ (SText ?s) _ = _ =>
        let s' := eval vm_compute in s in change s with s'
    end.
    reflexivity.
Qed.

(** C4, on the code. With a fetcher that hands texts over, the cycle
    [main.glsl] - [a.glsl] never settles: every nested call starts from an
    empty set of paths, so the duplicate test does not see the cycle. With
    the fetcher as it is called, without [await], the nested call receives
    the pending response and fails on [source.match]; the outcome is the
    load failure that an include of [lib.glsl], which is in no cycle,
    produces as well. *)
Theorem inclusion_cycle_is_not_detected :
  let gl := sampleGL [] [] in
  (∀ fuel, recursiveLoad fuel gl cyclicFiles "main.glsl"
             (SText (includeLine "a.glsl")) ∅ = None)
  ∧ (∀ fuel, recursiveLoad (2 + fuel) gl pendingFetch "main.glsl"
               (SText (includeLine "a.glsl")) ∅
             = Some (Throw (loadFailed "a.glsl")))
  ∧ (∀ fuel, recursiveLoad (2 + fuel) gl pendingFetch "main.glsl"
               (SText (includeLine "lib.glsl")) ∅
             = Some (Throw (loadFailed "lib.glsl"))).
Proof.
  intros gl. split_and!.
  - assert (∀ fuel,
              recursiveLoad fuel gl cyclicFiles "main.glsl"
                (SText (includeLine "a.glsl")) ∅ = None
              ∧ recursiveLoad fuel gl cyclicFiles "a.glsl"
                  (SText (includeLine "main.glsl")) ∅ = None) as Hboth;
      [|intros fuel; apply Hboth].
    induction fuel as [|fuel [IHmain IHa]]; [done|]. split.
    + erewrite recursiveLoad_include;
        [|vm_compute; reflexivity|vm_compute; reflexivity].
      cbv zeta.
      change (getpath "main.glsl" +:+ "a.glsl") with "a.glsl".
      change (cyclicFiles "a.glsl") with (SText (includeLine "main.glsl")).
      by rewrite IHa.
    + erewrite recursiveLoad_include;
        [|vm_compute; reflexivity|vm_compute; reflexivity].
      cbv zeta.
      change (getpath "a.glsl" +:+ "main.glsl") with "main.glsl".
      change (cyclicFiles "main.glsl") with (SText (includeLine "a.glsl")).
      by rewrite IHmain.
  - intros fuel. change (2 + fuel)%nat with (S (S fuel)).
    erewrite recursiveLoad_include;
      [|vm_compute; reflexivity|vm_compute; reflexivity].
    reflexivity.
  - intros fuel. change (2 + fuel)%nat with (S (S fuel)).
    erewrite recursiveLoad_include;
      [|vm_compute; reflexivity|vm_compute; reflexivity].
    reflexivity.
Qed.

(** ** What the constructor builds *)

Lemma assignAttribute_lookup key index acc name :
  acc !! "__proto__" = None →
  assignAttribute key index acc !! name =
    if bool_decide (name = key ∧ name ≠ "__proto__") then Some index
    else acc !! name.
Proof.
  intros Hinv. unfold assignAttribute.
  destruct (String.eqb_spec key "__proto__") as [->|Hne].
  - rewrite Hinv, (bool_decide_eq_false_2 (is_Some None)) by apply is_Some_None.
    rewrite bool_decide_eq_false_2; [done|]. by intros [-> ?].
  - assert ((if bool_decide (is_Some (acc !! key))
             then <[key := index]> acc else <[key := index]> acc)
            = <[key := index]> acc) as -> by (by case_bool_decide).
    destruct (decide (name = key)) as [->|Hother].
    + rewrite bool_decide_eq_true_2 by done. apply lookup_insert_eq.
    + rewrite bool_decide_eq_false_2 by (by intros [? _]).
      by apply lookup_insert_ne.
Qed.

Lemma attributeLoop_lookup gl infos acc name :
  acc !! "__proto__" = None →
  attributeLoop gl infos acc !! name =
    if bool_decide (name ∈ info_name <$> infos ∧ name ≠ "__proto__")
    then Some (gl_getAttribLocation gl name)
    else acc !! name.
Proof.
  revert acc. induction infos as [|info rest IH]; intros acc Hinv.
  - rewrite bool_decide_eq_false_2; [done|].
    intros [Hin _]. by apply elem_of_nil in Hin.
  - unfold attributeLoop in *. simpl foldl. rewrite IH.
    + rewrite fmap_cons, (assignAttribute_lookup _ _ _ name Hinv).
      destruct (decide (name = "__proto__")) as [->|Hne];
        [by rewrite !bool_decide_eq_false_2 by (by intros [_ ?])|].
      destruct (decide (name ∈ info_name <$> rest)) as [Hin|Hout].
      * rewrite (bool_decide_eq_true_2 (name ∈ info_name <$> rest ∧ _))
          by done.
        rewrite bool_decide_eq_true_2; [done|].
        split; [by apply list_elem_of_further|done].
      * rewrite (bool_decide_eq_false_2 (name ∈ info_name <$> rest ∧ _))
          by (by intros [? _]).
        destruct (decide (name = info_name info)) as [->|Hother].
        -- rewrite bool_decide_eq_true_2 by done.
           rewrite bool_decide_eq_true_2; [done|].
           split; [apply list_elem_of_here|done].
        -- rewrite bool_decide_eq_false_2 by (by intros [? _]).
           rewrite bool_decide_eq_false_2; [done|].
           by intros [[?|?]%elem_of_cons _].
    + rewrite (assignAttribute_lookup _ _ _ _ Hinv).
      rewrite bool_decide_eq_false_2; [done|]. by intros [_ ?].
Qed.

(** After construction, [attributes] maps the names of the active
    attributes, each to the location that the driver gives for it, and
    nothing else; an attribute reported as [__proto__] leaves no key.
    [program] is the handle of the driver and [attributeEnabled] is
    empty. *)
Theorem attributes_hold_locations gl vs fs w prog w' :
  newProgram gl vs fs w = (Normal prog, w') →
  gl_createProgram gl = Some (program prog)
  ∧ attributeEnabled prog = ∅
  ∧ ∀ name,
      attributes prog !! name =
        if bool_decide (name ∈ info_name <$> gl_getActiveAttribs gl
                        ∧ name ≠ "__proto__")
        then Some (gl_getAttribLocation gl name)
        else None.
Proof.
  intros Hnew.
  destruct (newProgram_inv _ _ _ _ _ _ Hnew) as (Hp & _ & Ha & He).
  split_and!; [done|done|]. intros name.
  by rewrite Ha, attributeLoop_lookup, lookup_empty by apply lookup_empty.
Qed.

Lemma uniformLoop_dom gl glProgram infos us proto w us' proto' w' :
  uniformLoop gl glProgram infos us proto w = (Normal (us', proto'), w') →
  us !! "__proto__" = None →
  (∀ key, is_Some (us' !! key)
          ↔ is_Some (us !! key)
            ∨ key ∈ keyOf <$> infos ∧ key ≠ "__proto__")
  ∧ (is_Some proto' ↔ is_Some proto ∨ "__proto__" ∈ keyOf <$> infos).
Proof.
  revert us proto w.
  induction infos as [|info rest IH]; intros us proto w Hrun Hinv.
  - injection Hrun as <- <- _. simpl. split.
    + intros key. split; [by left|].
      intros [?|[Hin _]]; [done|]. by apply elem_of_nil in Hin.
    + split; [by left|]. intros [?|Hin]; [done|]. by apply elem_of_nil in Hin.
  - destruct (uniformLoop_step _ _ _ _ _ _ _ _ _ Hrun Hinv)
      as [(e & _ & [=])|(s & w1 & _ & [(_ & _ & _ & [=] & _)|Hnext])].
    destruct Hnext as (us1 & proto1 & _ & Hinv1 & Hstep & Hrest).
    destruct (IH _ _ _ Hrest Hinv1) as [Hdom Hproto].
    rewrite Hproto, fmap_cons.
    destruct (String.eqb_spec (keyOf info) "__proto__") as [Hkey|Hkey];
      destruct Hstep as [-> ->].
    + split.
      * intros key. rewrite Hdom, elem_of_cons, Hkey. tauto.
      * rewrite elem_of_cons, Hkey.
        split; [intros _; right; by left|by left].
    + split.
      * intros key. rewrite Hdom, elem_of_cons, lookup_insert_is_Some.
        destruct (decide (key = keyOf info)) as [->|Hne]; [tauto|].
        split; intros H; intuition congruence.
      * rewrite elem_of_cons.
        split; intros H; intuition congruence.
Qed.

(** After construction, the keys of [uniforms] are exactly the cleaned
    names of the active uniforms other than [__proto__]: nothing else is
    registered and no other active uniform is left out; and [uniforms] has
    a closure as its prototype exactly when a uniform has the cleaned name
    [__proto__]. *)
Theorem uniform_keys_are_active_names gl vs fs w prog w' :
  newProgram gl vs fs w = (Normal prog, w') →
  dom (uniforms prog)
  = list_to_set (keyOf <$> gl_getActiveUniforms gl) ∖ {["__proto__"]}
  ∧ (is_Some (uniformsPrototype prog)
     ↔ "__proto__" ∈ keyOf <$> gl_getActiveUniforms gl).
Proof.
  intros Hnew.
  destruct (newProgram_inv _ _ _ _ _ _ Hnew) as (_ & Hloop & _).
  destruct (uniformLoop_dom _ _ _ _ _ _ _ _ _ Hloop (lookup_empty _))
    as [Hdom Hproto].
  split.
  - apply set_eq. intros key.
    rewrite elem_of_dom, Hdom, elem_of_difference, elem_of_list_to_set,
      not_elem_of_singleton, lookup_empty.
    split; [intros [Hnone|?]; [by destruct Hnone|done]|by right].
  - rewrite Hproto. split; [|by right].
    intros [Hnone|?]; [|done]. by destruct Hnone.
Qed.

Lemma getUniformSetter_effect gl glProgram info w r w' :
  getUniformSetter gl glProgram info (isArrayOf info) w = (r, w') →
  calls w' = calls w
  ∧ ∀ s, r = Normal s → heap w' = heap w ++ option_list (scratchOf info).
Proof.
  unfold scratchOf.
  destruct (kindOf (info_type info)) as [k|] eqn:Hk.
  - destruct (properArray info (isArrayOf info)) eqn:Hproper.
    + unfold properArray in Hproper.
      apply andb_true_iff in Hproper as [Hsize Harr]. apply Z.ltb_lt in Hsize.
      rewrite Harr, (getUniformSetter_array _ _ _ _ _ Hk Hsize).
      destruct k; intros [= <- <-]; (split; [done|]); intros s Hs;
        try done; simpl; by rewrite app_nil_r.
    + rewrite (getUniformSetter_plain _ _ _ _ _ _ Hk Hproper).
      intros [= <- <-].
      destruct k as [b|b d|d]; simpl; [by rewrite app_nil_r| |by rewrite app_nil_r].
      destruct (isArrayOf info); simpl; [by rewrite app_nil_r|done].
  - rewrite (getUniformSetter_unknown _ _ _ _ _ Hk). by intros [= <- <-].
Qed.

Lemma uniformLoop_effect gl glProgram infos us proto w r w' :
  uniformLoop gl glProgram infos us proto w = (r, w') →
  us !! "__proto__" = None →
  calls w' = calls w
  ∧ ∀ result, r = Normal result → heap w' = heap w ++ omap scratchOf infos.
Proof.
  revert us proto w.
  induction infos as [|info rest IH]; intros us proto w Hrun Hinv.
  - injection Hrun as <- <-. split; [done|]. intros _ _. simpl.
    by rewrite app_nil_r.
  - destruct (uniformLoop_step _ _ _ _ _ _ _ _ _ Hrun Hinv)
      as [(e & Hset & ->)|(s & w1 & Hset & [(_ & _ & _ & -> & ->)|Hnext])].
    + destruct (getUniformSetter_effect _ _ _ _ _ _ Hset) as [Hc _].
      by split.
    + destruct (getUniformSetter_effect _ _ _ _ _ _ Hset) as [Hc _].
      by split.
    + destruct Hnext as (us1 & proto1 & _ & Hinv1 & _ & Hrest).
      destruct (getUniformSetter_effect _ _ _ _ _ _ Hset) as [Hc Hh].
      destruct (IH _ _ _ Hrest Hinv1) as [Hc' Hh']. split; [congruence|].
      intros result ->. rewrite (Hh' _ eq_refl), (Hh _ eq_refl), <- app_assoc.
      f_equal. simpl. by destruct (scratchOf info).
Qed.

(** The constructor never calls an upload function, whether it completes
    or throws; when it completes, the heap has grown by one zero-filled
    buffer for each active vector uniform that is not reported as an
    array, in the order of the driver, and by nothing else. *)
Theorem construction_uploads_nothing gl vs fs w r w' :
  newProgram gl vs fs w = (r, w') →
  calls w' = calls w
  ∧ ∀ prog, r = Normal prog →
            heap w' = heap w ++ omap scratchOf (gl_getActiveUniforms gl).
Proof.
  unfold newProgram. unfold mbind at 1, JS_bind.
  destruct (createProgram gl vs fs w) as [[h|e] w1] eqn:Hcreate.
  - apply createProgram_world in Hcreate as ->.
    destruct h as [h|]; [|by intros [= <- <-]].
    unfold mbind, JS_bind.
    destruct (uniformLoop _ _ _ _ _ _) as [[[us proto]|e] w2] eqn:Hloop;
      destruct (uniformLoop_effect _ _ _ _ _ _ _ _ Hloop (lookup_empty _))
        as [Hc Hh];
      intros [= <- <-]; (split; [done|]); [|done].
    intros prog _. by apply (Hh (us, proto)).
  - apply createProgram_world in Hcreate as ->. by intros [= <- <-].
Qed.



Lemma lessonProgram_built :
  newProgram lessonGL "vs" "fs" emptyWorld = (Normal lessonProgram, lessonWorld).
Proof. vm_compute. reflexivity. Qed.

Lemma attributes_hold_locations_witness :
  gl_createProgram lessonGL = Some (program lessonProgram)
  ∧ attributeEnabled lessonProgram = ∅
  ∧ ∀ name,
      attributes lessonProgram !! name =
        if bool_decide (name ∈ info_name <$> gl_getActiveAttribs lessonGL
                        ∧ name ≠ "__proto__")
        then Some (gl_getAttribLocation lessonGL name)
        else None.
Proof.
  apply (attributes_hold_locations lessonGL "vs" "fs" emptyWorld lessonProgram
           lessonWorld).
  vm_compute. reflexivity.
Defined.

Lemma uniform_keys_are_active_names_witness :
  dom (uniforms lessonProgram)
  = list_to_set (keyOf <$> gl_getActiveUniforms lessonGL) ∖ {["__proto__"]}
  ∧ (is_Some (uniformsPrototype lessonProgram)
     ↔ "__proto__" ∈ keyOf <$> gl_getActiveUniforms lessonGL).
Proof.
  apply (uniform_keys_are_active_names lessonGL "vs" "fs" emptyWorld
           lessonProgram lessonWorld).
  vm_compute. reflexivity.
Defined.

Lemma construction_uploads_nothing_witness :
  calls lessonWorld = calls emptyWorld
  ∧ ∀ prog, Normal lessonProgram = Normal prog →
            heap lessonWorld
            = heap emptyWorld ++ omap scratchOf (gl_getActiveUniforms lessonGL).
Proof.
  apply (construction_uploads_nothing lessonGL "vs" "fs" emptyWorld
           (Normal lessonProgram) lessonWorld).
  vm_compute. reflexivity.
Defined.


(** One active uniform with a type tag outside the table makes the
    constructor throw, wherever it stands among the others. *)
Theorem unknown_type_makes_constructor_throw gl vs fs w info :
  info ∈ gl_getActiveUniforms gl →
  kindOf (info_type info) = None →
  ∃ e w', newProgram gl vs fs w = (Throw e, w').
Proof.
  intros Hin Hk.
  destruct (newProgram gl vs fs w) as [[prog|e] w'] eqn:Hnew; [|by eauto].
  by destruct (newProgram_aborts_on_unknown_type gl vs fs w info Hin Hk prog w').
Qed.

Lemma unknown_type_makes_constructor_throw_witness :
  ∃ e w',
    newProgram (sampleGL [colorInfo; countInfo] []) "vs" "fs" emptyWorld
    = (Throw e, w').
Proof.
  apply (unknown_type_makes_constructor_throw
           (sampleGL [colorInfo; countInfo] []) "vs" "fs" emptyWorld countInfo).
  - apply list_elem_of_further, list_elem_of_here.
  - reflexivity.
Defined.

(** So does one active array of more than one vector or matrix. *)
Theorem vector_array_makes_constructor_throw gl vs fs w info base k :
  info ∈ gl_getActiveUniforms gl →
  info_name info = base +:+ "[0]" →
  1 < info_size info →
  kindOf (info_type info) = Some k →
  (∀ b, k ≠ KScalar b) →
  ∃ e w', newProgram gl vs fs w = (Throw e, w').
Proof.
  intros Hin Hname Hsize Hk Hvec.
  destruct (newProgram gl vs fs w) as [[prog|e] w'] eqn:Hnew; [|by eauto].
  by destruct (newProgram_rejects_vector_arrays gl vs fs w info base k
                 Hin Hname Hsize Hk Hvec prog w').
Qed.

Lemma vector_array_makes_constructor_throw_witness :
  ∃ e w',
    newProgram (sampleGL [colorInfo; lightsInfo] []) "vs" "fs" emptyWorld
    = (Throw e, w').
Proof.
  apply (vector_array_makes_constructor_throw
           (sampleGL [colorInfo; lightsInfo] []) "vs" "fs" emptyWorld
           lightsInfo "lights" (KVector Floating D3)).
  - apply list_elem_of_further, list_elem_of_here.
  - reflexivity.
  - reflexivity.
  - reflexivity.
  - intros b H. discriminate H.
Defined.

(** An array of a single scalar, reported as [base[0]] with size 1, is
    registered under [base] like a plain scalar: reading [uniforms[base]]
    yields the closure that hands the value as it is to [uniform1f] or
    [uniform1i], not to the array call. *)
Theorem single_element_array_is_a_scalar gl vs fs w prog w' info base b :
  newProgram gl vs fs w = (Normal prog, w') →
  NoDup (keyOf <$> gl_getActiveUniforms gl) →
  info ∈ gl_getActiveUniforms gl →
  info_name info = base +:+ "[0]" →
  info_size info ≤ 1 →
  kindOf (info_type info) = Some (KScalar b) →
  getMember (uniforms prog) (uniformsPrototype prog) base =
    Normal (Some (Closure
      (PrimitiveSetter (upload (KScalar b) false)
         (gl_getUniformLocation gl (info_name info))))).
Proof.
  intros Hnew Hnodup Hin Hname Hsize Hk.
  destruct (newProgram_registers _ _ _ _ _ _ _ Hnew Hnodup Hin)
    as (s & w1 & w2 & Hset & Hreg).
  destruct (isArrayOf_indexed _ _ Hname) as [Hkey Harr].
  rewrite Hkey in Hreg. rewrite Harr in Hset.
  rewrite (getUniformSetter_plain _ _ _ _ _ _ Hk) in Hset.
  - by injection Hset as <- _.
  - unfold properArray. apply andb_false_iff. left. by apply Z.ltb_ge.
Qed.

Lemma single_element_array_is_a_scalar_witness :
  getMember
    (uniforms
       {| program := 2%positive; attributes := ∅; attributeEnabled := ∅;
          uniforms := {["gain" := PrimitiveSetter uniform1f (Some 0)]};
          uniformsPrototype := None |})
    (uniformsPrototype
       {| program := 2%positive; attributes := ∅; attributeEnabled := ∅;
          uniforms := {["gain" := PrimitiveSetter uniform1f (Some 0)]};
          uniformsPrototype := None |})
    "gain"
  = Normal (Some (Closure
      (PrimitiveSetter (upload (KScalar Floating) false)
         (gl_getUniformLocation (sampleGL [uniform "gain[0]" FLOAT 1] [])
            (info_name (uniform "gain[0]" FLOAT 1)))))).
Proof.
  apply (single_element_array_is_a_scalar
           (sampleGL [uniform "gain[0]" FLOAT 1] []) "vs" "fs" emptyWorld
           {| program := 2%positive; attributes := ∅; attributeEnabled := ∅;
              uniforms := {["gain" := PrimitiveSetter uniform1f (Some 0)]};
              uniformsPrototype := None |}
           emptyWorld (uniform "gain[0]" FLOAT 1) "gain" Floating).
  - vm_compute. reflexivity.
  - apply (bool_decide_unpack _). vm_compute. exact I.
  - apply list_elem_of_here.
  - reflexivity.
  - simpl. lia.
  - reflexivity.
Defined.

(** ** Sequences of uniforms, lengths and fresh buffers *)

Lemma setUniformsLoop_app this forms1 forms2 w :
  setUniformsLoop this (forms1 ++ forms2) w =
    match setUniformsLoop this forms1 w with
    | (Normal _, w1) => setUniformsLoop this forms2 w1
    | (Throw e, w1) => (Throw e, w1)
    end.
Proof.
  revert w. induction forms1 as [|[n v] forms1 IH]; intros w; [done|].
  simpl app. rewrite !setUniformsLoop_cons.
  destruct (setUniform this n v w) as [[p|e] w1]; [apply IH|done].
Qed.

(** [setUniforms] is [setUniform] applied key by key in the order of the
    keys: one entry behaves like [setUniform], and a list of entries
    behaves like its first part followed by its second part, where an
    error in the first part ends the call and leaves the second part
    unapplied. *)
Theorem setUniforms_in_sequence this :
  (∀ name value w,
     setUniforms this [(name, value)] w = setUniform this name value w)
  ∧ (∀ forms1 forms2 w,
       setUniforms this (forms1 ++ forms2) w =
         match setUniforms this forms1 w with
         | (Normal _, w1) => setUniforms this forms2 w1
         | (Throw e, w1) => (Throw e, w1)
         end).
Proof.
  split.
  - intros name value w. unfold setUniforms. unfold mbind, JS_bind.
    rewrite setUniformsLoop_cons.
    destruct (setUniform this name value w) as [[p|e] w1] eqn:Hset; [|done].
    by rewrite (setUniform_returns_this _ _ _ _ _ _ Hset).
  - intros forms1 forms2 w. unfold setUniforms, mbind, JS_bind.
    rewrite setUniformsLoop_app.
    by destruct (setUniformsLoop this forms1 w) as [[[]|e] w1].
Qed.

Lemma setUniform_own this name s value w :
  uniforms this !! name = Some s →
  setUniform this name value w =
    match callSetter s value w with
    | (Normal _, w1) => (Normal this, w1)
    | (Throw e, w1) => (Throw e, w1)
    end.
Proof.
  intros Hown. rewrite setUniform_unfold. unfold hasProperty, getMember.
  rewrite Hown. by rewrite bool_decide_eq_true_2 by done.
Qed.

(** A value with more numbers than the vector has components is refused:
    [setUniform] throws a [RangeError], the buffer keeps its contents and
    the driver is not called. *)
Theorem oversized_value_is_refused this name f loc a t value w :
  uniforms this !! name = Some (VectorSetter f loc (TAInst a)) →
  heap w !! a = Some t →
  (ta_length t < length (flatten value))%nat →
  setUniform this name value w = (Throw RangeError, w).
Proof.
  intros Hown Hload Hlen. rewrite (setUniform_own _ _ _ _ _ Hown). simpl.
  unfold mbind, JS_bind, load, lift. rewrite Hload. unfold ta_set.
  by rewrite (proj2 (Nat.ltb_lt _ _) Hlen).
Qed.

Lemma oversized_value_is_refused_witness :
  setUniform sampleProgram "color" (plainArray [1; 2; 3; 4]%float) sampleWorld
  = (Throw RangeError, sampleWorld).
Proof.
  apply (oversized_value_is_refused sampleProgram "color" uniform3fv (Some 1)
           0%nat (F32 [0; 0; 0]%float) (plainArray [1; 2; 3; 4]%float)
           sampleWorld).
  - vm_compute. reflexivity.
  - reflexivity.
  - simpl. lia.
Defined.

Lemma ta_set_short t xs :
  (length xs ≤ ta_length t)%nat →
  ∃ t', ta_set t xs = Normal t'
        ∧ ta_type t' = ta_type t
        ∧ ta_length t' = ta_length t
        ∧ ta_numbers t' =
            ta_numbers (ta_of_numbers (ta_type t) xs)
            ++ drop (length xs) (ta_numbers t).
Proof.
  intros Hlen. unfold ta_set.
  destruct (Nat.ltb_spec (ta_length t) (length xs)) as [Hlt|_]; [lia|].
  destruct t as [d|d]; simpl in *; eexists; (split; [done|]); simpl.
  - split_and!; [done| |done].
    rewrite length_app, length_fmap, length_drop. lia.
  - split_and!; [done| |].
    + rewrite length_app, length_fmap, length_drop. lia.
    + by rewrite fmap_app, fmap_drop.
Qed.

(** A value with fewer numbers than the vector has components overwrites
    only the leading slots of the buffer: the call succeeds, the buffer
    keeps its type and length, and the driver reads the new numbers
    followed by what the remaining slots held before. *)
Theorem short_value_keeps_the_tail this name f loc a t value w :
  uniforms this !! name = Some (VectorSetter f loc (TAInst a)) →
  heap w !! a = Some t →
  (length (flatten value) ≤ ta_length t)%nat →
  ∃ t',
    setUniform this name value w =
      (Normal this,
       {| heap := <[a := t']> (heap w);
          calls := calls w ++ [{| call_fn := f; call_loc := loc;
                                  call_args := [ATyped a t'] |}] |})
    ∧ ta_type t' = ta_type t
    ∧ ta_length t' = ta_length t
    ∧ ta_numbers t' =
        ta_numbers (ta_of_numbers (ta_type t) (flatten value))
        ++ drop (length (flatten value)) (ta_numbers t).
Proof.
  intros Hown Hload Hlen.
  destruct (ta_set_short t (flatten value) Hlen) as (t' & Hset & Hrest).
  exists t'. split; [|exact Hrest].
  rewrite (setUniform_own _ _ _ _ _ Hown). simpl.
  unfold mbind, JS_bind, load, lift, store, emit. by rewrite Hload, Hset.
Qed.

Lemma short_value_keeps_the_tail_witness :
  ∃ t',
    setUniform sampleProgram "color" (plainArray [9]%float)
      {| heap := [F32 [1; 2; 3]%float]; calls := [] |} =
      (Normal sampleProgram,
       {| heap := <[0%nat := t']> [F32 [1; 2; 3]%float];
          calls := [] ++ [{| call_fn := uniform3fv; call_loc := Some 1;
                             call_args := [ATyped 0 t'] |}] |})
    ∧ ta_type t' = Float32Array
    ∧ ta_length t' = 3%nat
    ∧ ta_numbers t' =
        ta_numbers (ta_of_numbers Float32Array [9]%float)
        ++ drop 1 [1; 2; 3]%float.
Proof.
  apply (short_value_keeps_the_tail sampleProgram "color" uniform3fv (Some 1)
           0%nat (F32 [1; 2; 3]%float) (plainArray [9]%float)
           {| heap := [F32 [1; 2; 3]%float]; calls := [] |}).
  - vm_compute. reflexivity.
  - reflexivity.
  - simpl. lia.
Defined.

Lemma callAll_array f loc T vals w :
  Forall isArrayLike vals →
  callAll (ArraySetter f loc (TACtor T)) vals w =
    (Normal tt,
     {| heap := heap w ++ ((fun v => ta_of_numbers T (numbers v)) <$> vals);
        calls := calls w ++ imap (arrayCall f loc T (length (heap w))) vals |}).
Proof.
  intros Hvals. revert w.
  induction Hvals as [|v rest Hv _ IH]; intros w.
  - simpl. rewrite !app_nil_r. by destruct w.
  - destruct v as [x|y|elems conv]; [done|done|].
    change (callAll ?s (?v :: rest) w)
      with (mbind (fun _ => callAll s rest) (callSetter s v) w).
    unfold mbind at 1, JS_bind. rewrite callSetter_array, IH. simpl.
    f_equal. f_equal.
    + by rewrite <- app_assoc.
    + rewrite <- app_assoc. f_equal. simpl. f_equal.
      * unfold arrayCall. simpl. by rewrite Nat.add_0_r.
      * apply imap_ext. intros i v _. unfold arrayCall. simpl.
        rewrite length_app. simpl. do 3 f_equal. lia.
Qed.

(** The setter of an array of scalars allocates a new typed array on
    every call: after a run of calls with array-like values the heap holds
    the earlier objects unchanged, followed by one array per call, and the
    [i]-th call has passed the [i]-th new object with the numbers of its
    own value. *)
Theorem array_setter_allocates_per_call gl glProgram info b vals w :
  kindOf (info_type info) = Some (KScalar b) →
  1 < info_size info →
  Forall isArrayLike vals →
  ∃ s,
    getUniformSetter gl glProgram info true w = (Normal s, w)
    ∧ callAll s vals w =
        (Normal tt,
         {| heap := heap w
                    ++ ((fun v => ta_of_numbers (staging b) (numbers v))
                          <$> vals);
            calls := calls w
                     ++ imap (arrayCall (upload (KScalar b) true)
                                (gl_getUniformLocation gl (info_name info))
                                (staging b) (length (heap w))) vals |}).
Proof.
  intros Hk Hsize Hvals.
  rewrite (getUniformSetter_array _ _ _ _ _ Hk Hsize).
  eexists. split; [done|]. by apply callAll_array.
Qed.

Lemma array_setter_allocates_per_call_witness :
  ∃ s,
    getUniformSetter (sampleGL [weightsInfo] []) 2%positive weightsInfo true
      sampleWorld = (Normal s, sampleWorld)
    ∧ callAll s [plainArray [1; 2; 3]%float; plainArray [4; 5; 6]%float]
        sampleWorld =
        (Normal tt,
         {| heap := heap sampleWorld
                    ++ ((fun v => ta_of_numbers (staging Floating) (numbers v))
                          <$> [plainArray [1; 2; 3]%float;
                               plainArray [4; 5; 6]%float]);
            calls := calls sampleWorld
                     ++ imap (arrayCall (upload (KScalar Floating) true)
                                (gl_getUniformLocation
                                   (sampleGL [weightsInfo] [])
                                   (info_name weightsInfo))
                                (staging Floating)
                                (length (heap sampleWorld)))
                          [plainArray [1; 2; 3]%float;
                           plainArray [4; 5; 6]%float] |}).
Proof.
  apply (array_setter_allocates_per_call (sampleGL [weightsInfo] [])
           2%positive weightsInfo Floating
           [plainArray [1; 2; 3]%float; plainArray [4; 5; 6]%float]
           sampleWorld).
  - reflexivity.
  - reflexivity.
  - repeat constructor.
Defined.

Lemma unregistered_name_reaches_no_driver_witness :
  (∀ p, "__proto__" = "__proto__" → uniformsPrototype sampleProgram = Some p →
        setUniform sampleProgram "__proto__" (VNum 1) sampleWorld =
          match callSetter p (VNum 1) sampleWorld with
          | (Normal _, w1) => (Normal sampleProgram, w1)
          | (Throw e, w1) => (Throw e, w1)
          end)
  ∧ (∀ s, "__proto__" = "toLocaleString" →
          uniforms sampleProgram !! "toString" = Some s →
          setUniform sampleProgram "__proto__" (VNum 1) sampleWorld =
            match callSetterUndefined s sampleWorld with
            | (Normal _, w1) => (Normal sampleProgram, w1)
            | (Throw e, w1) => (Throw e, w1)
            end)
  ∧ (("__proto__" = "__proto__" → uniformsPrototype sampleProgram = None) →
     ("__proto__" = "toLocaleString" →
      uniforms sampleProgram !! "toString" = None) →
     setUniform sampleProgram "__proto__" (VNum 1) sampleWorld
     = (Normal sampleProgram, sampleWorld)
     ∨ setUniform sampleProgram "__proto__" (VNum 1) sampleWorld
       = (Throw TypeError, sampleWorld)).
Proof.
  apply (unregistered_name_reaches_no_driver sampleProgram "__proto__"
           (VNum 1) sampleWorld).
  vm_compute. reflexivity.
Defined.

(** ** More on [recursiveLoad] *)

(** Whatever is included, its text never reaches the including source:
    when the nested call settles, it has resolved to [undefined], and the
    call goes on, relative to the included file, with the directive
    replaced by the word [undefined] and the macros rewritten. *)
Theorem include_is_replaced_by_undefined
  fuel gl xhr base source duplist before path after r :
  matchInclude source = Some (before, path, after) →
  truthy duplist (getpath base +:+ path) = false →
  recursiveLoad fuel gl xhr (getpath base +:+ path)
    (xhr (getpath base +:+ path)) ∅ = Some (Normal r) →
  r = Undefined
  ∧ recursiveLoad (S fuel) gl xhr base (SText source) duplist
    = recursiveLoad fuel gl xhr (getpath base +:+ path)
        (SText (rewriteExtensions gl (before +:+ "undefined" +:+ after)))
        (({[getpath base +:+ path]} ∪ duplist) ∖ {[getpath base +:+ path]}).
Proof.
  intros Hm Hdup Hnested.
  pose proof (recursiveLoad_resolves_undefined _ _ _ _ _ _ _ Hnested) as ->.
  split; [done|].
  rewrite (recursiveLoad_include _ _ _ _ _ _ _ _ _ Hm Hdup). cbv zeta.
  by rewrite Hnested.
Qed.

Lemma include_is_replaced_by_undefined_witness :
  Undefined = Undefined
  ∧ recursiveLoad 2 (sampleGL [] []) libraryFiles "main.glsl"
      (SText (includeLine "lib.glsl" +:+ " void main() {}")) ∅
    = recursiveLoad 1 (sampleGL [] []) libraryFiles
        (getpath "main.glsl" +:+ "lib.glsl")
        (SText (rewriteExtensions (sampleGL [] [])
                  ("" +:+ "undefined" +:+ " void main() {}")))
        (({[getpath "main.glsl" +:+ "lib.glsl"]} ∪ ∅)
         ∖ {[getpath "main.glsl" +:+ "lib.glsl"]}).
Proof.
  apply (include_is_replaced_by_undefined 1 (sampleGL [] []) libraryFiles
           "main.glsl" (includeLine "lib.glsl" +:+ " void main() {}") ∅
           "" "lib.glsl" " void main() {}" Undefined).
  - vm_compute. reflexivity.
  - vm_compute. reflexivity.
  - vm_compute. reflexivity.
Defined.

Lemma recursiveLoad_rejections_witness :
  loadFailed "a.glsl" = TypeError ∨ ∃ url, loadFailed "a.glsl" = loadFailed url.
Proof.
  apply (recursiveLoad_rejections 2 (sampleGL [] []) pendingFetch "main.glsl"
           (SText (includeLine "a.glsl")) ∅ (loadFailed "a.glsl")).
  vm_compute. reflexivity.
Defined.

(** With the response passed on while it is still pending, as the code
    does, every source that has an include directive is rejected with the
    load failure of its first directive, resolved against the directory of
    [base]; nothing of the source behind the directive is looked at. *)
Theorem unawaited_fetch_fails_every_include
  fuel gl base source duplist before path after :
  matchInclude source = Some (before, path, after) →
  recursiveLoad (2 + fuel) gl pendingFetch base (SText source) duplist
  = Some (Throw (loadFailed (getpath base +:+ path))).
Proof.
  intros Hm. change (2 + fuel)%nat with (S (S fuel)).
  simpl. rewrite Hm. by destruct (truthy duplist _).
Qed.

Lemma unawaited_fetch_fails_every_include_witness :
  recursiveLoad (2 + 0) (sampleGL [] []) pendingFetch "shaders/main.glsl"
    (SText ("precision highp float; " +:+ includeLine "lib.glsl")) ∅
  = Some (Throw (loadFailed (getpath "shaders/main.glsl" +:+ "lib.glsl"))).
Proof.
  apply (unawaited_fetch_fails_every_include 0 (sampleGL [] []) "shaders/main.glsl"
           ("precision highp float; " +:+ includeLine "lib.glsl") ∅
           "precision highp float; " "lib.glsl" "").
  vm_compute. reflexivity.
Defined.

(** After a first directive has been resolved, the call goes on with the
    included file as [base]: the next directive of the same source is
    fetched relative to the directory of the first included file, not to
    the directory of the source. *)
Theorem later_include_is_resolved_against_earlier_one
  fuel gl xhr base source before path after text before2 path2 after2 :
  matchInclude source = Some (before, path, after) →
  inherited (getpath base +:+ path) = false →
  xhr (getpath base +:+ path) = SText text →
  ¬ hasIncludeDirective text →
  matchInclude (rewriteExtensions gl (before +:+ "undefined" +:+ after))
  = Some (before2, path2, after2) →
  xhr (getpath (getpath base +:+ path) +:+ path2) = SPending →
  recursiveLoad (3 + fuel) gl xhr base (SText source) ∅
  = Some (Throw (loadFailed (getpath (getpath base +:+ path) +:+ path2))).
Proof.
  intros Hm Hin Hx Hno Hm2 Hx2. change (3 + fuel)%nat with (S (S (S fuel))).
  assert (truthy ∅ (getpath base +:+ path) = false) as Hdup.
  { unfold truthy. rewrite bool_decide_eq_false_2 by apply not_elem_of_empty.
    by rewrite Hin. }
  rewrite (recursiveLoad_include _ _ _ _ _ _ _ _ _ Hm Hdup). cbv zeta.
  rewrite Hx.
  assert (recursiveLoad (S (S fuel)) gl xhr (getpath base +:+ path)
            (SText text) ∅ = Some (Normal Undefined)) as ->
    by (simpl; by rewrite (proj2 (matchInclude_none _) Hno)).
  rewrite duplist_emptied.
  change (replacementText Undefined) with "undefined".
  destruct (truthy ∅ (getpath (getpath base +:+ path) +:+ path2)) eqn:Hdup2.
  - simpl. by rewrite Hm2, Hdup2.
  - rewrite (recursiveLoad_include _ _ _ _ _ _ _ _ _ Hm2 Hdup2). cbv zeta.
    by rewrite Hx2.
Qed.

Lemma later_include_is_resolved_against_earlier_one_witness :
  recursiveLoad (3 + 0) (sampleGL [] []) partialFetch "main.glsl"
    (SText (includeLine "sub/lib.glsl" +:+ includeLine "more.glsl")) ∅
  = Some (Throw (loadFailed
                   (getpath (getpath "main.glsl" +:+ "sub/lib.glsl")
                    +:+ "more.glsl"))).
Proof.
  apply (later_include_is_resolved_against_earlier_one 0 (sampleGL [] [])
           partialFetch "main.glsl"
           (includeLine "sub/lib.glsl" +:+ includeLine "more.glsl")
           "" "sub/lib.glsl" (includeLine "more.glsl") "float lib;"
           "undefined" "more.glsl" "").
  - vm_compute. reflexivity.
  - vm_compute. reflexivity.
  - vm_compute. reflexivity.
  - apply matchInclude_none. vm_compute. reflexivity.
  - vm_compute. reflexivity.
  - vm_compute. reflexivity.
Defined.

(** ** Paths and patterns *)

Lemma lastIndexOf_absent c s :
  (∀ x, In x (list_ascii_of_string s) → x ≠ c) → lastIndexOf c s = -1.
Proof.
  induction s as [|a s IH]; intros Hall; [done|]. simpl.
  rewrite IH by (intros x Hx; apply Hall; by right). simpl.
  rewrite bool_decide_eq_false_2; [done|]. apply Hall. by left.
Qed.

Lemma lastIndexOf_append c p r :
  0 ≤ lastIndexOf c r →
  lastIndexOf c (p +:+ r) = Z.of_nat (String.length p) + lastIndexOf c r.
Proof.
  intros Hr. induction p as [|a p IH]; [done|].
  change (String a p +:+ r) with (String a (p +:+ r)). simpl lastIndexOf.
  rewrite IH. cbv zeta.
  rewrite (proj2 (Z.leb_le _ _)) by lia.
  simpl String.length. lia.
Qed.

Lemma substring_nothing s : substring 0 0 s = EmptyString.
Proof. by destruct s. Qed.

(** [getpath] keeps the directory of a path, up to and including its last
    slash, and gives the empty string for a name without a slash. *)
Theorem getpath_directory dir file :
  (∀ c, In c (list_ascii_of_string file) → c ≠ "/"%char) →
  getpath (dir +:+ "/" +:+ file) = dir +:+ "/"
  ∧ getpath file = EmptyString.
Proof.
  intros Hfile. pose proof (lastIndexOf_absent "/" file Hfile) as Hnone.
  split.
  - unfold getpath.
    rewrite lastIndexOf_append
      by (change ("/" +:+ file) with (String "/" file); simpl;
          rewrite Hnone; simpl; lia).
    change ("/" +:+ file) with (String "/" file). simpl lastIndexOf.
    rewrite Hnone. simpl.
    replace (Z.to_nat (Z.of_nat (String.length dir) + 0 + 1))
      with (String.length (dir +:+ "/"))
      by (rewrite length_append; simpl; lia).
    change (String "/" file) with ("/" +:+ file).
    rewrite <- append_assoc. apply substring_base.
  - unfold getpath. rewrite Hnone. apply substring_nothing.
Qed.

Lemma getpath_directory_witness :
  getpath ("shaders/lib" +:+ "/" +:+ "main.glsl") = "shaders/lib" +:+ "/"
  ∧ getpath "main.glsl" = EmptyString.
Proof.
  apply (getpath_directory "shaders/lib" "main.glsl").
  intros c Hin. vm_compute in Hin. intuition (subst; discriminate).
Defined.

Lemma matchIncludeHere_other c rest :
  c ≠ "#"%char → matchIncludeHere (String c rest) = None.
Proof.
  intros Hc. unfold matchIncludeHere, includeKeyword. simpl.
  rewrite bool_decide_eq_false_2; [done|]. congruence.
Qed.

Lemma untilQuote_exact path after :
  (∀ c, In c (list_ascii_of_string path) →
        c ≠ dquote ∧ isLineTerminator c = false) →
  untilQuote (path +:+ String dquote after) = Some (path, after).
Proof.
  induction path as [|c path IH]; intros Hall; [done|].
  change (String c path +:+ ?r) with (String c (path +:+ r)). simpl.
  destruct (Hall c) as [Hq Ht]; [by left|].
  rewrite bool_decide_eq_false_2 by done. rewrite Ht.
  rewrite IH; [done|]. intros c' Hin. apply Hall. by right.
Qed.

(** Written out and read back: a directive whose path has neither a quote
    nor a line terminator, behind a text without [#], is found by the
    pattern with exactly that text before it, that path, and the rest
    after it. *)
Theorem matchInclude_finds_directive before path after :
  (∀ c, In c (list_ascii_of_string before) → c ≠ "#"%char) →
  (∀ c, In c (list_ascii_of_string path) →
        c ≠ dquote ∧ isLineTerminator c = false) →
  matchInclude (before +:+ includeKeyword +:+ path +:+ String dquote after)
  = Some (before, path, after).
Proof.
  intros Hbefore Hpath.
  assert (matchIncludeHere (includeKeyword +:+ path +:+ String dquote after)
          = Some (path, after)) as Hhere.
  { unfold matchIncludeHere. rewrite stripPrefix_complete.
    by apply untilQuote_exact. }
  induction before as [|c before IH].
  - change ("" +:+ ?s) with s. by rewrite matchInclude_unfold, Hhere.
  - change (String c before +:+ ?s) with (String c (before +:+ s)).
    rewrite matchInclude_unfold.
    rewrite matchIncludeHere_other by (apply Hbefore; by left).
    rewrite IH; [done|]. intros c' Hin. apply Hbefore. by right.
Qed.

Lemma matchInclude_finds_directive_witness :
  matchInclude ("precision highp float; " +:+ includeKeyword +:+ "lib/noise.glsl"
                +:+ String dquote " void main() {}")
  = Some ("precision highp float; ", "lib/noise.glsl", " void main() {}").
Proof.
  apply (matchInclude_finds_directive "precision highp float; "
           "lib/noise.glsl" " void main() {}").
  - intros c Hin. vm_compute in Hin. intuition (subst; discriminate).
  - intros c Hin. vm_compute in Hin.
    intuition (subst; (discriminate || reflexivity)).
Defined.

Lemma untilQuote_no_quote s captured after :
  untilQuote s = Some (captured, after) →
  ∀ c, In c (list_ascii_of_string captured) → c ≠ dquote.
Proof.
  revert captured. induction s as [|c s IH]; intros captured; simpl; [done|].
  case_bool_decide as Hq.
  - intros [= <- <-]. by intros c' [].
  - destruct (isLineTerminator c); [done|].
    destruct (untilQuote s) as [[captured' after']|]; [|done].
    intros [= <- <-]. intros c' [<-|Hin]; [done|by apply (IH _ eq_refl)].
Qed.

Lemma matchIncludeHere_no_quote s path after :
  matchIncludeHere s = Some (path, after) →
  ∀ c, In c (list_ascii_of_string path) → c ≠ dquote.
Proof.
  unfold matchIncludeHere.
  destruct (stripPrefix includeKeyword s); [|done]. apply untilQuote_no_quote.
Qed.

(** The match that [recursiveLoad] works with is the first one and the
    shortest one: the source splits into the text before, the directive
    and the text after; the captured path has no quote and no line
    terminator; and the pattern matches at no position inside the text
    before. *)
Theorem matchInclude_is_first_and_shortest source before path after :
  matchInclude source = Some (before, path, after) →
  source = before +:+ includeKeyword +:+ path +:+ String dquote after
  ∧ (∀ c, In c (list_ascii_of_string path) →
          c ≠ dquote ∧ isLineTerminator c = false)
  ∧ ∀ skipped c rest,
      before = skipped +:+ String c rest →
      matchIncludeHere (String c rest +:+ includeKeyword +:+ path
                        +:+ String dquote after) = None.
Proof.
  intros Hm. destruct (matchInclude_sound _ _ _ _ Hm) as [Hsplit Hterm].
  split; [done|]. clear Hsplit. revert before Hm.
  induction source as [|x source IH]; intros before Hm.
  - by vm_compute in Hm.
  - rewrite matchInclude_unfold in Hm.
    destruct (matchIncludeHere (String x source)) as [[p a]|] eqn:Hhere.
    + injection Hm as <- <- <-. split.
      * intros c Hin. split; [|by apply Hterm].
        by apply (matchIncludeHere_no_quote _ _ _ Hhere).
      * intros skipped c rest Hsk. by destruct skipped.
    + destruct (matchInclude source) as [[[b p] a]|] eqn:Hrest; [|done].
      injection Hm as <- <- <-.
      destruct (IH _ eq_refl) as [Hq Hfirst]. split; [done|].
      intros skipped c rest Hsk. destruct skipped as [|y skipped].
      * injection Hsk as <- <-.
        destruct (matchInclude_sound _ _ _ _ Hrest) as [-> _]. exact Hhere.
      * injection Hsk as _ Hsk. by apply (Hfirst skipped).
Qed.

Lemma matchInclude_is_first_and_shortest_witness :
  "a " +:+ includeLine "x.glsl" +:+ includeLine "y.glsl"
  = "a " +:+ includeKeyword +:+ "x.glsl"
    +:+ String dquote (includeLine "y.glsl")
  ∧ (∀ c, In c (list_ascii_of_string "x.glsl") →
          c ≠ dquote ∧ isLineTerminator c = false)
  ∧ ∀ skipped c rest,
      "a " = skipped +:+ String c rest →
      matchIncludeHere (String c rest +:+ includeKeyword +:+ "x.glsl"
                        +:+ String dquote (includeLine "y.glsl")) = None.
Proof.
  apply (matchInclude_is_first_and_shortest
           ("a " +:+ includeLine "x.glsl" +:+ includeLine "y.glsl")
           "a " "x.glsl" (includeLine "y.glsl")).
  vm_compute. reflexivity.
Defined.

Lemma rewriteExtensions_call_witness :
  rewriteExtensions (sampleGL [] ["OES_texture_float"])
    (" HAS_EXTENSION(" +:+ "OES_texture_float" +:+ String ")" " && x")
  = (if gl_getExtension (sampleGL [] ["OES_texture_float"]) "OES_texture_float"
     then " 1 " else " 0 ")
    +:+ rewriteExtensions (sampleGL [] ["OES_texture_float"]) " && x".
Proof.
  apply (rewriteExtensions_call (sampleGL [] ["OES_texture_float"])
           "OES_texture_float" " && x").
  split; [discriminate|].
  intros c Hin. vm_compute in Hin. intuition (subst; reflexivity).
Defined.

(** Text without white space is copied as it is: a macro is only
    rewritten where white space stands before it, so a call at the very
    start of a source, or right behind a parenthesis or an operator,
    stays in the source. *)
Theorem rewriteExtensions_copies_dense_text gl text rest :
  (∀ c, In c (list_ascii_of_string text) → isSpace c = false) →
  rewriteExtensions gl (text +:+ rest) = text +:+ rewriteExtensions gl rest.
Proof.
  unfold rewriteExtensions.
  induction text as [|c text IH]; intros Hall; [done|].
  change (String c text +:+ ?r) with (String c (text +:+ r)).
  cbn [rewriteFrom].
  assert (matchHasExtension (String c (text +:+ rest)) = None) as ->
    by (simpl; by rewrite (Hall c) by (by left)).
  rewrite IH; [done|]. intros c' Hin. apply Hall. by right.
Qed.

Lemma rewriteExtensions_copies_dense_text_witness :
  rewriteExtensions (sampleGL [] ["FOO"]) ("(HAS_EXTENSION(FOO))" +:+ "")
  = "(HAS_EXTENSION(FOO))" +:+ rewriteExtensions (sampleGL [] ["FOO"]) "".
Proof.
  apply (rewriteExtensions_copies_dense_text (sampleGL [] ["FOO"])
           "(HAS_EXTENSION(FOO))" "").
  intros c Hin. vm_compute in Hin. intuition (subst; reflexivity).
Defined.

(** ** Options and the alternate constructors *)

Lemma getProp_setProp k v props key :
  getProp (setProp k v props) key
  = if String.eqb k key then v else getProp props key.
Proof.
  induction props as [|[k' old] rest IH]; simpl; [done|].
  destruct (String.eqb_spec k' k) as [->|Hne]; simpl.
  - by destruct (String.eqb k key).
  - rewrite IH. destruct (String.eqb_spec k key) as [->|Hne']; [|done].
    by rewrite (proj2 (String.eqb_neq _ _) Hne).
Qed.

Lemma setProp_keys k v props key :
  key ∈ (setProp k v props).*1 ↔ key = k ∨ key ∈ props.*1.
Proof.
  induction props as [|[k' old] rest IH]; simpl.
  - rewrite list_elem_of_singleton. split; [auto|]. intros [?|H]; [done|].
    by apply elem_of_nil in H.
  - destruct (String.eqb_spec k' k) as [->|Hne]; simpl.
    + rewrite !elem_of_cons. tauto.
    + rewrite !elem_of_cons, IH. tauto.
Qed.

Lemma assign_keys target source key :
  key ∈ (assign target source).*1 ↔ key ∈ target.*1 ∨ key ∈ source.*1.
Proof.
  unfold assign. revert target.
  induction source as [|[k v] rest IH]; intros target; simpl.
  - split; [auto|]. intros [?|H]; [done|]. by apply elem_of_nil in H.
  - rewrite IH, setProp_keys, elem_of_cons. tauto.
Qed.

Lemma getProp_absent props key : key ∉ props.*1 → getProp props key = JUndefined.
Proof.
  induction props as [|[k v] rest IH]; simpl; [done|].
  intros Hout. apply not_elem_of_cons in Hout as [Hne Hout].
  by rewrite (proj2 (String.eqb_neq _ _) (not_eq_sym Hne)), IH.
Qed.

Lemma getProp_assign target source key :
  NoDup source.*1 →
  getProp (assign target source) key
  = if bool_decide (key ∈ source.*1) then getProp source key
    else getProp target key.
Proof.
  unfold assign. revert target.
  induction source as [|[k v] rest IH]; intros target Hnodup.
  - by rewrite bool_decide_eq_false_2 by apply not_elem_of_nil.
  - simpl. apply NoDup_cons in Hnodup as [Hfresh Hnodup].
    rewrite (IH _ Hnodup).
    destruct (String.eqb_spec k key) as [->|Hne].
    + rewrite bool_decide_eq_false_2 by done.
      rewrite bool_decide_eq_true_2 by apply list_elem_of_here.
      by rewrite getProp_setProp, String.eqb_refl.
    + rewrite getProp_setProp, (proj2 (String.eqb_neq _ _) Hne).
      destruct (decide (key ∈ rest.*1)) as [Hin|Hout].
      * by rewrite !bool_decide_eq_true_2
          by (try apply list_elem_of_further; done).
      * rewrite !bool_decide_eq_false_2; [done| |done].
        intros [?|?]%elem_of_cons; [congruence|done].
Qed.

(** With two arguments, [_getOptions] takes them as the vertex and the
    fragment shader: [vs] and [fs] are the arguments, whatever [base] had
    under these keys, and every other key reads as in [base]. *)
Theorem getOptions_of_two_arguments base vs fs :
  NoDup (ownProps base).*1 →
  getProp (_getOptions base [vs; fs]) "vs" = vs
  ∧ getProp (_getOptions base [vs; fs]) "fs" = fs
  ∧ ∀ key, key ≠ "vs" → key ≠ "fs" →
           getProp (_getOptions base [vs; fs]) key
           = getProp (ownProps base) key.
Proof.
  intros Hnodup. unfold _getOptions. simpl.
  assert (ownProps (orDefault (JObject []) base) = ownProps base) as ->
    by (by destruct base).
  split_and!.
  - rewrite !getProp_setProp. reflexivity.
  - rewrite !getProp_setProp. reflexivity.
  - intros key Hvs Hfs. rewrite !getProp_setProp.
    rewrite (proj2 (String.eqb_neq _ _) (not_eq_sym Hfs)).
    rewrite (proj2 (String.eqb_neq _ _) (not_eq_sym Hvs)).
    rewrite (getProp_assign _ _ _ Hnodup). case_bool_decide as Hin; [done|].
    simpl. symmetry. by apply getProp_absent.
Qed.

Lemma getOptions_of_two_arguments_witness :
  getProp (_getOptions (JObject [("path", JString "shaders/");
                                 ("vs", JString "old.vs")])
             [JString "a.vs"; JString "a.fs"]) "vs" = JString "a.vs"
  ∧ getProp (_getOptions (JObject [("path", JString "shaders/");
                                   ("vs", JString "old.vs")])
               [JString "a.vs"; JString "a.fs"]) "fs" = JString "a.fs"
  ∧ ∀ key, key ≠ "vs" → key ≠ "fs" →
           getProp (_getOptions (JObject [("path", JString "shaders/");
                                          ("vs", JString "old.vs")])
                      [JString "a.vs"; JString "a.fs"]) key
           = getProp (ownProps (JObject [("path", JString "shaders/");
                                         ("vs", JString "old.vs")])) key.
Proof.
  apply (getOptions_of_two_arguments
           (JObject [("path", JString "shaders/"); ("vs", JString "old.vs")])
           (JString "a.vs") (JString "a.fs")).
  apply (bool_decide_unpack _). vm_compute. exact I.
Defined.

(** With any other number of arguments, [_getOptions] lays the properties
    of its first argument over those of [base]: a key of the first
    argument reads as there, every other key as in [base]; a first
    argument that is missing or falsy adds nothing. *)
Theorem getOptions_overlays_first_argument base args key :
  length args ≠ 2%nat →
  NoDup (ownProps base).*1 →
  NoDup (ownProps (nth 0 args JUndefined)).*1 →
  getProp (_getOptions base args) key
  = if truthyValue (nth 0 args JUndefined)
       && bool_decide (key ∈ (ownProps (nth 0 args JUndefined)).*1)
    then getProp (ownProps (nth 0 args JUndefined)) key
    else getProp (ownProps base) key.
Proof.
  intros Hlen Hbase Hfirst. unfold _getOptions.
  rewrite (proj2 (Nat.eqb_neq _ _) Hlen).
  assert (ownProps (orDefault (JObject []) base) = ownProps base) as ->
    by (by destruct base).
  assert (∀ k, getProp (assign [] (ownProps base)) k = getProp (ownProps base) k)
    as Hcopy.
  { intros k. rewrite (getProp_assign _ _ _ Hbase).
    case_bool_decide; [done|]. simpl. symmetry. by apply getProp_absent. }
  destruct (truthyValue (nth 0 args JUndefined)); simpl.
  - rewrite (getProp_assign _ _ _ Hfirst). by case_bool_decide.
  - apply Hcopy.
Qed.

Lemma getOptions_overlays_first_argument_witness :
  getProp (_getOptions (JObject [("path", JString "./")]) [sampleOptions])
    "path"
  = if truthyValue (nth 0 [sampleOptions] JUndefined)
       && bool_decide ("path" ∈ (ownProps (nth 0 [sampleOptions] JUndefined)).*1)
    then getProp (ownProps (nth 0 [sampleOptions] JUndefined)) "path"
    else getProp (ownProps (JObject [("path", JString "./")])) "path".
Proof.
  apply (getOptions_overlays_first_argument (JObject [("path", JString "./")])
           [sampleOptions] "path").
  - simpl. lia.
  - apply (bool_decide_unpack _). vm_compute. exact I.
  - apply (bool_decide_unpack _). vm_compute. exact I.
Defined.

Lemma indexKey_is_not_app i : indexKey i ≠ "app".
Proof. unfold indexKey. by destruct (Nat.to_uint i). Qed.

Lemma indexProps_keys elems key :
  key ∈ (indexProps elems).*1 → ∃ i, key = indexKey i.
Proof.
  unfold indexProps. intros Hin.
  apply list_elem_of_fmap in Hin as ([k v] & -> & Hin).
  apply elem_of_lookup_imap in Hin as (i & x & [= -> ->] & _). by exists i.
Qed.

Lemma options_of_sources_have_no_app args :
  getProp
    (_getOptions (JObject (assign [("path", JString "./")] (indexProps args)))
       []) "app"
  = JUndefined.
Proof.
  apply getProp_absent. unfold _getOptions. simpl.
  rewrite !assign_keys. simpl.
  intros [H|[H|H]].
  - by apply elem_of_nil in H.
  - apply list_elem_of_singleton in H. discriminate H.
  - apply indexProps_keys in H as [i Hi]. by apply (indexKey_is_not_app i).
Qed.

(** [fromShaderSources] cannot build a program: whatever the arguments
    are, the options that it assembles have the keys [path], [0], [1] and
    so on, but no [app], so reading [opt.app.gl] throws a [TypeError]
    before anything is loaded or sent to the driver. *)
Theorem fromShaderSources_always_rejects args w :
  fromShaderSources args w = (Throw TypeError, w).
Proof.
  unfold fromShaderSources. by rewrite options_of_sources_have_no_app.
Qed.

(** Nor can [fromDefaultShaders], which hands its options to
    [fromShaderSources] as a single argument: every call is rejected with
    a [TypeError], whatever the shader table holds. *)
Theorem fromDefaultShaders_always_rejects shaderTable opt w :
  fromDefaultShaders shaderTable opt w = (Throw TypeError, w).
Proof.
  unfold fromDefaultShaders, mbind, JS_bind, lift.
  destruct (member (orDefault (JObject []) opt) "vs") as [vs|e] eqn:Hvs.
  - destruct (member (orDefault (JObject []) opt) "fs") as [fs|e] eqn:Hfs.
    + unfold fromShaderSources. by rewrite options_of_sources_have_no_app.
    + destruct opt as [| | | | | |props]; simpl in *; by simplify_eq.
  - destruct opt as [| | | | | |props]; simpl in *; by simplify_eq.
Qed.

(** [fromShaderIds] is rejected with a [TypeError] on every input: when
    the options have no application, when an element is missing, and
    otherwise when [Promise.all] is handed a promise instead of an
    array. The driver is never reached. *)
Theorem fromShaderIds_always_rejects dom args w :
  fromShaderIds dom args w = (Throw TypeError, w).
Proof.
  unfold fromShaderIds, mbind, JS_bind, lift.
  destruct (member _ "gl") as [gl|e] eqn:Hgl.
  - destruct (dom (getProp _ "vs")); [|done].
    by destruct (dom (getProp _ "fs")).
  - destruct (getProp _ "app"); simpl in *; by simplify_eq.
Qed.

(** [fromShaderURIs] is rejected on every input without reaching the
    driver: with a [TypeError] when the options are no object or have no
    application ([opt.app] is [undefined] or [null]), and with the
    [ReferenceError] of the unbound [XHRGroup] when they have one. *)
Theorem fromShaderURIs_always_rejects opt w :
  ((∀ props, opt ≠ JObject props) →
   fromShaderURIs opt w = (Throw TypeError, w))
  ∧ (∀ props,
       opt = JObject props →
       getProp props "app" = JUndefined ∨ getProp props "app" = JNull →
       fromShaderURIs opt w = (Throw TypeError, w))
  ∧ (∀ props,
       opt = JObject props →
       getProp props "app" ≠ JUndefined → getProp props "app" ≠ JNull →
       fromShaderURIs opt w = (Throw ReferenceError, w)).
Proof.
  unfold fromShaderURIs, mbind, JS_bind, lift. split_and!.
  - intros Hopt. destruct opt as [| | | | | |props]; try done.
    by destruct (Hopt props).
  - intros props -> Happ. simpl. by destruct Happ as [-> | ->].
  - intros props -> Hundefined Hnull. simpl.
    by destruct (getProp props "app").
Qed.

Lemma fromShaderURIs_always_rejects_witness :
  ((∀ props, sampleOptions ≠ JObject props) →
   fromShaderURIs sampleOptions emptyWorld = (Throw TypeError, emptyWorld))
  ∧ (∀ props,
       sampleOptions = JObject props →
       getProp props "app" = JUndefined ∨ getProp props "app" = JNull →
       fromShaderURIs sampleOptions emptyWorld = (Throw TypeError, emptyWorld))
  ∧ (∀ props,
       sampleOptions = JObject props →
       getProp props "app" ≠ JUndefined → getProp props "app" ≠ JNull →
       fromShaderURIs sampleOptions emptyWorld
       = (Throw ReferenceError, emptyWorld)).
Proof. exact (fromShaderURIs_always_rejects sampleOptions emptyWorld). Defined.
